(** * PicoRV assembler front end: the lexer of [src/Lexer.cpp]

    A shallow embedding of the [Lexer] class: the constructor that scans a
    source stream line by line with the regular expression
    [[a-zA-Z0-9_]+], the classifier [Lexer::tokenize], the three
    consumption members [hasMoreTokens], [peekNextToken], [getNextToken],
    and the dump [Lexer::printTokens].

    Conventions.
    - A C++ [char] is an [ascii]; a [std::string] or a ([const char*],
      [size_t]) pair is the [list ascii] of the characters it designates. The
      lexeme stored in a token is a [string], the key type of the
      instruction set.
    - [int] members and locals are [Z] values kept in the 32-bit signed range
      by [to_int] at every place where the source stores into an [int].
      Positions and lengths beyond [INT_MAX] make the source read the token
      text from the wrong place, possibly outside the line buffer; the model
      clips such reads at the ends of the line, and every theorem that
      depends on the text or on the exact value of a counter states the
      bound under which the [int] is exact.
    - The [std::deque<Token>&] the lexer holds is caller-owned shared state:
      it is the store of the small state-and-exception monad [M]. *)

From Stdlib Require Import ZArith Ascii String DecimalString List Lia.
From stdpp Require Import base gmap strings list.
From Equations Require Import Equations.
From Equations.Prop Require Import Logic.

Local Open Scope Z_scope.

(** * The model *)

(** ** Characters *)

Definition code (c : ascii) : Z := Z.of_N (N_of_ascii c).

(** [std::isdigit] in the "C" locale. *)
Definition isdigit (c : ascii) : bool :=
  (48 <=? code c) && (code c <=? 57).

(** [std::isxdigit] in the "C" locale: [0-9], [A-F], [a-f]. *)
Definition isxdigit (c : ascii) : bool :=
  isdigit c
  || ((65 <=? code c) && (code c <=? 70))
  || ((97 <=? code c) && (code c <=? 102)).

(** The bracket expression [[a-zA-Z0-9_]] of the constructor's regex. *)
Definition is_word (c : ascii) : bool :=
  ((97 <=? code c) && (code c <=? 122))
  || ((65 <=? code c) && (code c <=? 90))
  || ((48 <=? code c) && (code c <=? 57))
  || (code c =? 95).

Definition ascii_eqb (a b : ascii) : bool := Ascii.eqb a b.
Infix "=c?" := ascii_eqb (at level 70).

(** The characters of a string literal. *)
Definition chars (s : string) : list ascii := list_ascii_of_string s.

(** ** Machine integers *)

Definition INT_MAX : Z := 2147483647.

(** Storing a value into an [int]: two's complement wrap-around. *)
Definition to_int (z : Z) : Z := (z + 2 ^ 31) mod 2 ^ 32 - 2 ^ 31.

(** ** Tokens *)

(** Modelled from the spec: the enumeration is declared in
    [include/Lexer.h], which is not part of the sources at hand. Its six
    enumerators are the categories of section 3 of the specification, under
    the names [Lexer::printTokens] switches over. *)
Inductive TokenType : Set :=
| INSTRUCTION | REGISTER | IMMEDIATE | LABEL | END_OF_LINE | ERROR.

Global Instance TokenType_eq_dec : EqDecision TokenType.
Proof. solve_decision. Defined.

(** Modelled from the spec: [include/Lexer.h], which declares [Token], is
    not part of the sources at hand. The four fields are the ones section 3
    of the specification lists and [Lexer::printTokens] reads, in the order
    the constructor calls in [Lexer.cpp] pass them; line and column are
    [int]s, as [Lexer::tokenize] receives them. *)
Module Token.
Record t : Set := mk
  { type : TokenType; lexeme : string; line : Z; column : Z }.
End Token.
Abbreviation Token := Token.t.

Global Instance Token_eq_dec : EqDecision Token.
Proof. solve_decision. Defined.

(** ** The regular expression [[a-zA-Z0-9_]+] and [std::sregex_iterator] *)

(** One result of the iterator: [match.position(0)] and the matched text,
    whose length is [match.length(0)]. *)
Record smatch : Set := mk_smatch { position : nat; matched : list ascii }.

(** The greedy [+]: the longest prefix made of class characters, and what
    follows it. *)
Fixpoint match_greedy (l : list ascii) : list ascii * list ascii :=
  match l with
  | c :: l' =>
      if is_word c
      then let '(w, rest) := match_greedy l' in (c :: w, rest)
      else ([], l)
  | [] => ([], [])
  end.

(** [std::regex_search]: the leftmost place where the expression matches.
    Returns the offset of the match, its text, and the unread suffix. *)
Fixpoint regex_search (l : list ascii)
  : option (nat * list ascii * list ascii) :=
  match l with
  | [] => None
  | c :: l' =>
      if is_word c
      then let '(w, rest) := match_greedy l' in Some (0%nat, c :: w, rest)
      else match regex_search l' with
           | Some (off, w, rest) => Some (S off, w, rest)
           | None => None
           end
  end.

(** The iterator below recurses on the suffix a search leaves unread; these
    two facts are its termination argument. *)

Lemma match_greedy_length l :
  (length (match_greedy l).2 <= length l)%nat.
Proof.
  induction l as [|c l IH]; simpl; [lia|].
  destruct (is_word c); [|simpl; lia].
  destruct (match_greedy l) as [w rest]; simpl in *; lia.
Qed.

Lemma regex_search_length l off w rest :
  regex_search l = Some (off, w, rest) → (length rest < length l)%nat.
Proof.
  revert off w rest; induction l as [|c l IH]; intros off w rest; simpl; [done|].
  destruct (is_word c).
  - pose proof (match_greedy_length l) as Hl.
    destruct (match_greedy l) as [w' rest']; simpl in *.
    intros [= <- <- <-]. lia.
  - destruct (regex_search l) as [[[off' w'] rest']|] eqn:E; [|done].
    intros [= <- <- <-]. specialize (IH _ _ _ eq_refl). lia.
Qed.

(** The iterator: search, report the match at its absolute position, go on
    from the end of the match until a search fails. [base] is the offset of
    [l] within the line. *)
Equations sregex_iterator (base : nat) (l : list ascii)
  : list smatch by wf (length l) lt :=
  sregex_iterator base l with inspect (regex_search l) := {
    | exist _ (Some (off, w, rest)) H =>
        mk_smatch (base + off) w
          :: sregex_iterator (base + off + length w) rest;
    | exist _ None _ => [] }.
Next Obligation.
  intros. eapply regex_search_length; eauto.
Qed.

Example sregex_iterator_example :
  sregex_iterator 0 (chars "add x1, x_2:")
  = [mk_smatch 0 (chars "add"); mk_smatch 4 (chars "x1");
     mk_smatch 8 (chars "x_2")].
Proof. reflexivity. Qed.

(** ** [Lexer::tokenize] *)

(** [str[i]]: the source only reads below [length]. *)
Definition char_at (str : list ascii) (i : nat) : ascii :=
  nth i str "000"%char.

(** The register loop, from [i = 1] on: [cs] are the characters still to
    read and [reg_num] the running value. Returns the flag [valid]. *)
Fixpoint register_loop (cs : list ascii) (reg_num : Z) : bool :=
  match cs with
  | [] => true
  | c :: cs' =>
      if negb (isdigit c) then false
      else
        let reg_num := to_int (reg_num * 10 + (code c - code "0")) in
        if 31 <? reg_num then false
        else register_loop cs' reg_num
  end.

Definition is_binary_digit (c : ascii) : bool :=
  negb (negb (c =c? "0") && negb (c =c? "1")).

(** [str] stands for the source's pair ([str], [length]): the [length]
    characters that [str] points to. *)
Definition tokenize (instructions : gset string)
    (str : list ascii) (line column : Z) : Token :=
  let len := length str in
  let tokenLexeme := string_of_list_ascii str in
  let type :=
    if bool_decide (tokenLexeme ∈ instructions) then INSTRUCTION
    else if (2 <=? len)%nat && (char_at str 0 =c? "x") then
      if register_loop (drop 1 str) 0 then REGISTER else ERROR
    else if (0 <? len)%nat then
      if (2 <? len)%nat && (char_at str 0 =c? "0")
         && (char_at str 1 =c? "b") then
        if forallb is_binary_digit (drop 2 str) then IMMEDIATE else ERROR
      else if (2 <? len)%nat && (char_at str 0 =c? "0")
              && (char_at str 1 =c? "x") then
        if forallb isxdigit (drop 2 str) then IMMEDIATE else ERROR
      else
        if forallb isdigit str then IMMEDIATE else ERROR
    else ERROR in
  let type :=
    if bool_decide (type = ERROR) && (0 <? len)%nat
       && (char_at str (len - 1) =c? ":") then
      let hasUnderscore := existsb (λ c, c =c? "_") (take (len - 1) str) in
      if negb hasUnderscore then LABEL else type
    else type in
  Token.mk type tokenLexeme line column.

(** ** The source stream and [std::getline] *)

(** A [std::ifstream] as the constructor sees it: what [is_open()] answers
    and the characters still to be read. *)
Record ifstream : Set := mk_ifstream
  { is_open : bool; content : list ascii }.

Definition newline : ascii := "010"%char.

(** The lines successive [std::getline] calls deliver until one fails: each
    runs up to a newline, which is dropped, or to the end of the stream; a
    call at the end of the stream fails. *)
Fixpoint getlines (s : list ascii) : list (list ascii) :=
  match s with
  | [] => []
  | c :: s' =>
      if c =c? newline then [] :: getlines s'
      else match getlines s' with
           | [] => [[c]]
           | l :: ls => (c :: l) :: ls
           end
  end.

Example getlines_example :
  getlines (chars "a" ++ [newline; newline] ++ chars "b" ++ [newline])
  = [chars "a"; []; chars "b"].
Proof. reflexivity. Qed.

(** ** Exceptions and the shared token deque *)

Inductive exn : Set :=
| runtime_error (what : string)
| out_of_range (what : string).

(** A member function runs against the deque the lexer refers to, and ends
    with a value or an exception. *)
Definition M (A : Type) : Type := list Token → (exn + A) * list Token.

Global Instance M_ret : MRet M := λ A a parsedFile, (inr a, parsedFile).
Global Instance M_bind : MBind M := λ A B k m parsedFile,
  match m parsedFile with
  | (inr a, parsedFile') => k a parsedFile'
  | (inl e, parsedFile') => (inl e, parsedFile')
  end.

Definition throw {A} (e : exn) : M A := λ parsedFile, (inl e, parsedFile).
Definition push_back (tok : Token) : M unit :=
  λ parsedFile, (inr tt, parsedFile ++ [tok]).
Definition empty : M bool :=
  λ parsedFile, (inr (bool_decide (parsedFile = [])), parsedFile).

(** ** The lexer object *)

(** Modelled from the spec: the class is declared in [include/Lexer.h].
    These are the members the constructor initialises, other than the
    reference [parsedFile], which is the store of [M]; the two counters are
    [int]s, the type at which they are handed to [Lexer::tokenize]. *)
Record Lexer : Type := mkLexer
  { currentLine : Z; currentColumn : Z; instructions : gset string }.

Definition set_currentColumn (c : Z) (this : Lexer) : Lexer :=
  mkLexer (currentLine this) c (instructions this).
Definition set_currentLine (n : Z) (this : Lexer) : Lexer :=
  mkLexer n (currentColumn this) (instructions this).

(** Passing an [int] where a [size_t] is expected. *)
Definition to_size_t (z : Z) : Z := z mod 2 ^ 64.

(** Body of the [for] loop over the matches of one line. The token text is
    read back from the line buffer at [lineStart + tokenPosition] over
    [tokenLength] characters, both held in [int]s. *)
Definition scan_match (line : list ascii) (this : Lexer) (m : smatch)
  : M Lexer :=
  let tokenPosition := to_int (Z.of_nat (position m)) in
  let tokenLength := to_int (Z.of_nat (length (matched m))) in
  let this := set_currentColumn (to_int (tokenPosition + 1)) this in
  let tokenStr := drop (Z.to_nat tokenPosition) line in
  let tok :=
    tokenize (instructions this)
      (take (Z.to_nat (to_size_t tokenLength)) tokenStr)
      (currentLine this) (currentColumn this) in
  push_back tok ;; mret this.

Fixpoint for_each {A B} (f : A → B → M A) (a : A) (l : list B) : M A :=
  match l with
  | [] => mret a
  | b :: l' => a' ← f a b; for_each f a' l'
  end.

Definition end_of_line_lexeme : string := String newline EmptyString.

(** Body of the [while] loop over the lines. *)
Definition scan_line (this : Lexer) (line : list ascii) : M Lexer :=
  this ← for_each (scan_match line) this (sregex_iterator 0 line);
  push_back (Token.mk END_OF_LINE end_of_line_lexeme
               (currentLine this) (currentColumn this));;
  let this := set_currentLine (to_int (currentLine this + 1)) this in
  let this := set_currentColumn 1 this in
  mret this.

(** [Lexer::Lexer]. The deque [parsedFileRef] is the initial store. *)
Definition Lexer_new (source : ifstream) (instructionsSet : gset string)
  : M Lexer :=
  let this := mkLexer 1 1 instructionsSet in
  if negb (is_open source) then
    throw (runtime_error "Source file not found!")
  else
    for_each scan_line this (getlines (content source)).

(** ** Consumption *)

Definition hasMoreTokens (this : Lexer) : M bool :=
  e ← empty; mret (negb e).

Definition peekNextToken (this : Lexer) : M Token :=
  λ parsedFile,
    match parsedFile with
    | [] => throw (out_of_range "No tokens available to peek.") parsedFile
    | front :: _ => (inr front, parsedFile)
    end.

Definition getNextToken (this : Lexer) : M Token :=
  λ parsedFile,
    match parsedFile with
    | [] => throw (out_of_range "No tokens available.") parsedFile
    | nextToken :: parsedFile' => (inr nextToken, parsedFile')
    end.

(** ** [Lexer::printTokens] *)






(** ** A reader of the stream *)

(** A client that calls [getNextToken] [n] times in a row and collects what
    it receives. *)
Fixpoint getTokens (this : Lexer) (n : nat) : M (list Token) :=
  match n with
  | O => mret []
  | S n' =>
      tok ← getNextToken this;
      toks ← getTokens this n';
      mret (tok :: toks)
  end.

(** * Reference definitions *)

(** ** Reference definitions for the classification rules *)

(** The digits read as a decimal integer, accumulated left to right. *)
Definition decimal_value (ds : list ascii) : Z :=
  fold_left (λ acc c, acc * 10 + (code c - 48)) ds 0.

(** [str] begins with the characters [p]. *)
Definition starts_with (p str : list ascii) : bool :=
  bool_decide (take (length p) str = p).

(** Rule 2 of the classification. *)
Definition register_rule (str : list ascii) : bool :=
  (2 <=? length str)%nat
  && starts_with (chars "x") str
  && forallb isdigit (drop 1 str)
  && (0 <=? decimal_value (drop 1 str))
  && (decimal_value (drop 1 str) <=? 31).

Definition binary_rule (str : list ascii) : bool :=
  forallb (λ c, bool_decide (c = "0"%char ∨ c = "1"%char)) (drop 2 str).
Definition hexadecimal_rule (str : list ascii) : bool :=
  forallb isxdigit (drop 2 str).
Definition decimal_rule (str : list ascii) : bool :=
  forallb isdigit str.

(** Rule 3: the three sub-rules in their order; a matched prefix commits to
    its sub-rule. *)
Definition immediate_rule (str : list ascii) : bool :=
  if (2 <? length str)%nat && starts_with (chars "0b") str
  then binary_rule str
  else if (2 <? length str)%nat && starts_with (chars "0x") str
  then hexadecimal_rule str
  else decimal_rule str.

(** Rule 4: last character [:], no [_] before it. *)
Definition label_rule (str : list ascii) : bool :=
  match reverse str with
  | c :: before => bool_decide (c = ":"%char ∧ "_"%char ∉ before)
  | [] => false
  end.

(** A lexeme reaches rule 3 when the register rule's guard does not take
    it: it is not empty and is not an [x] followed by something. *)
Definition reaches_immediate (str : list ascii) : bool :=
  (0 <? length str)%nat
  && negb ((2 <=? length str)%nat && starts_with (chars "x") str).

(** The decimal numeral of [n], without leading zeros. *)
Definition decimal (n : nat) : string :=
  DecimalString.NilEmpty.string_of_uint (Nat.to_uint n).

(** The reference rules in their order, for a lexeme outside the
    instruction set. *)
Definition rule_type (str : list ascii) : TokenType :=
  if (2 <=? length str)%nat && starts_with (chars "x") str then
    if register_rule str then REGISTER
    else if label_rule str then LABEL else ERROR
  else if reaches_immediate str && immediate_rule str then IMMEDIATE
  else if label_rule str then LABEL else ERROR.

(** ** Maximal runs of word characters *)

(** Nothing matches at the head of [rest]. *)
Definition stops (rest : list ascii) : Prop :=
  match rest with
  | [] => True
  | c :: _ => is_word c = false
  end.

(** Position [i] of [l] starts a maximal run: a word character there, and
    none just before. *)
Definition run_start (l : list ascii) (i : nat) : bool :=
  is_word (char_at l i)
  && (bool_decide (i = 0%nat) || negb (is_word (char_at l (i - 1)))).

(** The start positions of the maximal runs of [l], from left to right. *)
Definition run_starts (l : list ascii) : list nat :=
  List.filter (run_start l) (seq 0 (length l)).

(** The same, in one pass: [prev] tells whether the character before [l] is
    a word character and [base] is the position of the head of [l]. *)
Fixpoint starts (prev : bool) (base : nat) (l : list ascii) : list nat :=
  match l with
  | [] => []
  | c :: l' =>
      (if is_word c && negb prev then [base] else [])
      ++ starts (is_word c) (S base) l'
  end.

(** Whether [pre] ends in a word character. *)
Definition last_word (pre : list ascii) : bool :=
  match last pre with
  | Some c => is_word c
  | None => false
  end.

(** ** The tokens of one line *)

(** What the loop body computes for a match: the column it stores, the text
    it hands to the classifier, the token it pushes. *)
Definition match_column (m : smatch) : Z :=
  to_int (to_int (Z.of_nat (position m)) + 1).

Definition match_text (line : list ascii) (m : smatch) : list ascii :=
  take (Z.to_nat (to_size_t (to_int (Z.of_nat (length (matched m))))))
       (drop (Z.to_nat (to_int (Z.of_nat (position m)))) line).

Definition match_token (instrs : gset string) (n : Z) (line : list ascii)
    (m : smatch) : Token :=
  tokenize instrs (match_text line m) n (match_column m).

(** Line number in force while line [i] (counted from 0) is scanned. *)
Definition line_number (i : nat) : Z := to_int (Z.of_nat i + 1).

(** The tokens the constructor appends for line [i] of the source. *)
Definition emitted (instrs : gset string) (i : nat) (line : list ascii)
  : list Token :=
  (scan_line (mkLexer (line_number i) 1 instrs) line []).2.

(** The token the line loop emplaces after the matches of a line. *)
Definition end_of_line (n column : Z) : Token :=
  Token.mk END_OF_LINE end_of_line_lexeme n column.

(** A real token: any token but the line terminator. *)
Definition is_real (t : Token) : Prop := Token.type t ≠ END_OF_LINE.

(** ** Outcomes and examples *)

(** The outcome "empty stream": a [std::out_of_range] exception. *)
Definition empty_stream_error {A} (r : exn + A) : Prop :=
  ∃ what, r = inl (out_of_range what).

(** Three lines: one with three runs, an empty one, one with a colon. *)
Definition example_source : ifstream :=
  mk_ifstream true
    (chars "add x1, x2" ++ [newline] ++ [newline] ++ chars "loop: , ;").

(** ** Lines and text *)

(** The text whose lines are [lines], each closed by a newline. *)
Definition unlines (lines : list (list ascii)) : list ascii :=
  concat ((λ l, l ++ [newline]) <$> lines).

(** Whether a text is empty or ends with a newline. *)
Definition ends_line (s : list ascii) : bool :=
  match last s with
  | Some c => c =c? newline
  | None => true
  end.

(** * Proofs *)

(** ** Characters and machine integers *)

Lemma ascii_eqb_true a b : (a =c? b) = true ↔ a = b.
Proof. apply Ascii.eqb_eq. Qed.

Lemma ascii_eqb_decide a b : (a =c? b) = bool_decide (a = b).
Proof.
  destruct (a =c? b) eqn:E.
  - apply ascii_eqb_true in E. by rewrite bool_decide_eq_true_2.
  - rewrite bool_decide_eq_false_2; [done|].
    intros ->. unfold ascii_eqb in E. by rewrite Ascii.eqb_refl in E.
Qed.

Lemma to_int_small z : - 2 ^ 31 ≤ z < 2 ^ 31 → to_int z = z.
Proof. intros Hz. unfold to_int. rewrite Z.mod_small; lia. Qed.

Lemma to_int_fits z : 0 ≤ z ≤ INT_MAX → to_int z = z.
Proof.
  unfold INT_MAX. intros Hz. apply to_int_small.
  change (2 ^ 31) with 2147483648. lia.
Qed.

Lemma to_size_t_fits z : 0 ≤ z ≤ INT_MAX → to_size_t z = z.
Proof.
  unfold INT_MAX, to_size_t. intros Hz. apply Z.mod_small.
  change (2 ^ 64) with 18446744073709551616. lia.
Qed.

Lemma to_int_succ z : to_int (to_int z + 1) = to_int (z + 1).
Proof.
  unfold to_int.
  replace ((z + 2 ^ 31) mod 2 ^ 32 - 2 ^ 31 + 1 + 2 ^ 31)
    with ((z + 2 ^ 31) mod 2 ^ 32 + 1) by lia.
  replace (z + 1 + 2 ^ 31) with ((z + 2 ^ 31) + 1) by lia.
  by rewrite Zplus_mod_idemp_l.
Qed.

Lemma isdigit_value c : isdigit c = true → 0 ≤ code c - code "0" ≤ 9.
Proof.
  unfold isdigit. change (code "0") with 48.
  rewrite andb_true_iff, !Z.leb_le. lia.
Qed.

(** ** The register loop *)

Lemma decimal_fold_ge cs r :
  forallb isdigit cs = true → 0 ≤ r →
  r ≤ fold_left (λ acc c, acc * 10 + (code c - 48)) cs r.
Proof.
  revert r; induction cs as [|c cs IH]; intros r Hd Hr; simpl in *; [lia|].
  apply andb_true_iff in Hd as [Hc Hd]. apply isdigit_value in Hc.
  change (code "0") with 48 in Hc.
  etrans; [|apply IH]; [lia|done|lia].
Qed.

Lemma register_loop_spec cs r :
  0 ≤ r ≤ 31 →
  register_loop cs r
  = forallb isdigit cs
    && (fold_left (λ acc c, acc * 10 + (code c - 48)) cs r <=? 31).
Proof.
  revert r; induction cs as [|c cs IH]; intros r Hr; simpl.
  - symmetry. apply Z.leb_le. lia.
  - destruct (isdigit c) eqn:Hc; simpl; [|done].
    pose proof (isdigit_value c Hc) as Hv. change (code "0") with 48 in *.
    rewrite to_int_small by lia.
    destruct (31 <? r * 10 + (code c - 48)) eqn:Hgt.
    + apply Z.ltb_lt in Hgt. symmetry.
      destruct (forallb isdigit cs) eqn:Hd; simpl; [|done].
      apply Z.leb_gt.
      pose proof (decimal_fold_ge cs (r * 10 + (code c - 48)) Hd). lia.
    + apply Z.ltb_ge in Hgt. apply IH. lia.
Qed.

Lemma decimal_value_nonneg cs : forallb isdigit cs = true → 0 ≤ decimal_value cs.
Proof. intros Hd. by apply (decimal_fold_ge cs 0). Qed.

(** ** The classifier, rule by rule *)

Lemma label_check_spec str :
  (0 <? length str)%nat && (char_at str (length str - 1) =c? ":")
  && negb (existsb (λ c, c =c? "_") (take (length str - 1) str))
  = label_rule str.
Proof.
  unfold label_rule.
  destruct str as [|c0 str0] using rev_ind; [done|].
  rewrite reverse_snoc, length_app. simpl.
  replace (length str0 + 1 - 1)%nat with (length str0) by lia.
  replace (0 <? length str0 + 1)%nat with true
    by (symmetry; apply Nat.ltb_lt; lia).
  unfold char_at. rewrite nth_middle, take_app_length. simpl.
  rewrite ascii_eqb_decide.
  destruct (decide (c0 = ":"%char)) as [->|Hc].
  - rewrite bool_decide_eq_true_2 by done. simpl.
    destruct (existsb _ str0) eqn:E; simpl; symmetry.
    + apply bool_decide_eq_false_2. intros [_ Hn]. apply Hn.
      apply existsb_exists in E as (x & Hin & Hx).
      apply ascii_eqb_true in Hx as ->.
      apply elem_of_reverse. by apply list_elem_of_In.
    + apply bool_decide_eq_true_2. split; [done|].
      intros Hin. rewrite elem_of_reverse, list_elem_of_In in Hin.
      assert (existsb (λ c, c =c? "_") str0 = true) as E'.
      { apply existsb_exists. exists "_"%char. split; [done|].
        by apply ascii_eqb_true. }
      congruence.
  - rewrite !bool_decide_eq_false_2; [done| |done]. by intros [? _].
Qed.

Lemma register_loop_rule cs :
  register_loop cs 0
  = forallb isdigit cs && (0 <=? decimal_value cs) && (decimal_value cs <=? 31).
Proof.
  rewrite register_loop_spec by lia. fold (decimal_value cs).
  destruct (forallb isdigit cs) eqn:Hd; simpl; [|done].
  apply decimal_value_nonneg in Hd.
  by replace (0 <=? decimal_value cs) with true by (symmetry; apply Z.leb_le; lia).
Qed.

Lemma is_binary_digit_decide c :
  is_binary_digit c = bool_decide (c = "0"%char ∨ c = "1"%char).
Proof.
  unfold is_binary_digit. rewrite !ascii_eqb_decide.
  destruct (decide (c = "0"%char)) as [->|H0]; [done|].
  destruct (decide (c = "1"%char)) as [->|H1]; [done|].
  rewrite !bool_decide_eq_false_2; [done| |done..]. by intros [?|?].
Qed.

Lemma forallb_binary cs :
  forallb is_binary_digit cs
  = forallb (λ c, bool_decide (c = "0"%char ∨ c = "1"%char)) cs.
Proof.
  induction cs as [|c cs IH]; simpl; [done|].
  by rewrite is_binary_digit_decide, IH.
Qed.

Lemma guard_x str :
  (2 <=? length str)%nat && (char_at str 0 =c? "x")
  = (2 <=? length str)%nat && starts_with (chars "x") str.
Proof.
  unfold starts_with, char_at. rewrite ascii_eqb_decide.
  destruct str as [|a [|b rest]]; simpl; [done..|].
  f_equal. apply bool_decide_ext. naive_solver.
Qed.

Lemma guard_prefix (p : ascii) str :
  (2 <? length str)%nat && (char_at str 0 =c? "0") && (char_at str 1 =c? p)
  = (2 <? length str)%nat && starts_with ["0"%char; p] str.
Proof.
  unfold starts_with, char_at. rewrite !ascii_eqb_decide.
  destruct str as [|a [|b [|c rest]]]; simpl; [done..|].
  repeat case_bool_decide; naive_solver.
Qed.

(** What the classifier answers outside the instruction set, in terms of
    the reference rules. *)
Lemma tokenize_type_rules str line column :
  Token.type (tokenize ∅ str line column)
  = if (2 <=? length str)%nat && starts_with (chars "x") str then
      if register_rule str then REGISTER
      else if label_rule str then LABEL else ERROR
    else if reaches_immediate str && immediate_rule str then IMMEDIATE
    else if label_rule str then LABEL else ERROR.
Proof.
  unfold tokenize. cbn [Token.type].
  rewrite (bool_decide_eq_false_2 (_ ∈ ∅)) by set_solver.
  rewrite <- (label_check_spec str).
  unfold register_rule, reaches_immediate, immediate_rule, binary_rule,
    hexadecimal_rule, decimal_rule.
  rewrite register_loop_rule, forallb_binary, guard_x, !guard_prefix.
  change (chars "0b") with ["0"%char; "b"%char].
  change (chars "0x") with ["0"%char; "x"%char].
  generalize (char_at str (length str - 1) =c? ":").
  generalize (existsb (λ c, c =c? "_") (take (length str - 1) str)).
  generalize ((2 <=? length str)%nat && starts_with (chars "x") str).
  generalize ((2 <? length str)%nat && starts_with ["0"%char; "b"%char] str).
  generalize ((2 <? length str)%nat && starts_with ["0"%char; "x"%char] str).
  generalize (0 <? length str)%nat.
  generalize (forallb isdigit (drop 1 str)).
  generalize (0 <=? decimal_value (drop 1 str)).
  generalize (decimal_value (drop 1 str) <=? 31).
  generalize (forallb (λ c, bool_decide (c = "0"%char ∨ c = "1"%char))
                (drop 2 str)).
  generalize (forallb isxdigit (drop 2 str)).
  generalize (forallb isdigit str).
  intros [] [] [] [] [] [] [] [] [] [] [] []; reflexivity.
Qed.

Lemma label_rule_colon str : label_rule str = true → ":"%char ∈ str.
Proof.
  unfold label_rule. destruct (reverse str) as [|c before] eqn:E; [done|].
  intros [-> _]%bool_decide_eq_true.
  apply elem_of_reverse. rewrite E. by left.
Qed.

Lemma tokenize_fields instrs str line column :
  tokenize instrs str line column
  = Token.mk (Token.type (tokenize instrs str line column))
      (string_of_list_ascii str) line column.
Proof. reflexivity. Qed.

(** The classifier at a given instruction set and source position. *)
Section Classifier.
Context (instrs : gset string) (line column : Z).

Lemma tokenize_instruction str :
  string_of_list_ascii str ∈ instrs →
  Token.type (tokenize instrs str line column) = INSTRUCTION.
Proof.
  intros Hin. unfold tokenize. cbn [Token.type].
  rewrite (bool_decide_eq_true_2 (_ ∈ instrs)) by done.
  by rewrite (bool_decide_eq_false_2 (INSTRUCTION = ERROR)).
Qed.

(** Outside the instruction set, the set plays no part. *)
Lemma tokenize_not_instruction str :
  string_of_list_ascii str ∉ instrs →
  tokenize instrs str line column = tokenize ∅ str line column.
Proof.
  intros Hn. unfold tokenize.
  rewrite (bool_decide_eq_false_2 (_ ∈ instrs)) by done.
  rewrite (bool_decide_eq_false_2 (_ ∈ ∅)) by set_solver.
  done.
Qed.

Lemma tokenize_string_not_instruction (s : string) :
  s ∉ instrs →
  tokenize instrs (chars s) line column = tokenize ∅ (chars s) line column.
Proof.
  intros Hn. apply tokenize_not_instruction.
  unfold chars. by rewrite string_of_list_ascii_of_string.
Qed.

Lemma tokenize_rule_type (s : string) :
  s ∉ instrs →
  tokenize instrs (chars s) line column
  = Token.mk (rule_type (chars s)) s line column.
Proof.
  intros Hn.
  rewrite tokenize_string_not_instruction, tokenize_fields,
    tokenize_type_rules by done.
  unfold chars. by rewrite string_of_list_ascii_of_string.
Qed.

(** The classifier has no path to the category of the line terminator. *)
Lemma tokenize_not_end_of_line str :
  Token.type (tokenize instrs str line column) ≠ END_OF_LINE.
Proof.
  destruct (decide (string_of_list_ascii str ∈ instrs)) as [Hin|Hn].
  - by rewrite tokenize_instruction.
  - rewrite tokenize_not_instruction, tokenize_type_rules by done.
    by repeat case_match.
Qed.

(** A lexeme of word characters is no Label. *)
Lemma tokenize_word_not_label str :
  forallb is_word str = true →
  Token.type (tokenize instrs str line column) ≠ LABEL.
Proof.
  intros Hw.
  assert (label_rule str = false) as Hl.
  { destruct (label_rule str) eqn:E; [|done].
    apply label_rule_colon, list_elem_of_In in E.
    rewrite forallb_forall in Hw. by apply Hw in E. }
  destruct (decide (string_of_list_ascii str ∈ instrs)) as [Hin|Hn].
  - by rewrite tokenize_instruction.
  - rewrite tokenize_not_instruction, tokenize_type_rules, Hl by done.
    by repeat case_match.
Qed.

End Classifier.

Lemma starts_with_zero_reaches p str :
  (2 <? length str)%nat && starts_with ["0"%char; p] str = true →
  reaches_immediate str = true.
Proof.
  unfold reaches_immediate, starts_with.
  destruct str as [|a [|b [|c rest]]]; simpl; try done.
  rewrite !bool_decide_eq_true. intros [= -> ->].
  by rewrite bool_decide_eq_false_2.
Qed.

(** ** The regular expression iterator *)

Lemma sregex_iterator_step base l :
  sregex_iterator base l
  = match regex_search l with
    | Some (off, w, rest) =>
        mk_smatch (base + off) w :: sregex_iterator (base + off + length w) rest
    | None => []
    end.
Proof.
  funelim (sregex_iterator base l);
    match goal with H : regex_search _ = _ |- _ => by rewrite H end.
Qed.

(** Induction along the searches of the iterator. *)
Lemma sregex_iterator_ind (P : nat → list ascii → list smatch → Prop) :
  (∀ base l, regex_search l = None → P base l []) →
  (∀ base l off w rest,
     regex_search l = Some (off, w, rest) →
     P (base + off + length w)%nat rest
       (sregex_iterator (base + off + length w) rest) →
     P base l (mk_smatch (base + off) w
                 :: sregex_iterator (base + off + length w) rest)) →
  ∀ base l, P base l (sregex_iterator base l).
Proof.
  intros Hnone Hsome base l.
  remember (length l) as n eqn:Hn.
  revert base l Hn. induction (lt_wf n) as [n _ IH]. intros base l ->.
  rewrite sregex_iterator_step.
  destruct (regex_search l) as [[[off w] rest]|] eqn:E; [|by apply Hnone].
  apply Hsome; [done|].
  eapply IH; [|done]. by eapply regex_search_length.
Qed.

Lemma match_greedy_spec l w rest :
  match_greedy l = (w, rest) →
  l = w ++ rest ∧ forallb is_word w = true ∧ stops rest.
Proof.
  revert w rest; induction l as [|c l IH]; intros w rest; simpl.
  - by intros [= <- <-].
  - destruct (is_word c) eqn:Hc.
    + destruct (match_greedy l) as [w' rest'].
      intros [= <- <-]. destruct (IH _ _ eq_refl) as (-> & Hw & Hr).
      simpl. by rewrite Hc, Hw.
    + by intros [= <- <-].
Qed.

Lemma regex_search_none l :
  regex_search l = None → existsb is_word l = false.
Proof.
  induction l as [|c l IH]; simpl; [done|].
  destruct (is_word c); [by destruct (match_greedy l)|].
  destruct (regex_search l) as [[[? ?] ?]|]; [done|]. auto.
Qed.

Lemma regex_search_some l off w rest :
  regex_search l = Some (off, w, rest) →
  ∃ pre, l = pre ++ w ++ rest ∧ length pre = off
         ∧ existsb is_word pre = false
         ∧ w ≠ [] ∧ forallb is_word w = true ∧ stops rest.
Proof.
  revert off; induction l as [|c l IH]; intros off; simpl; [done|].
  destruct (is_word c) eqn:Hc.
  - destruct (match_greedy l) as [w' rest'] eqn:Hg.
    intros [= <- <- <-]. apply match_greedy_spec in Hg as (-> & Hw & Hr).
    exists []. simpl. by rewrite Hc, Hw.
  - destruct (regex_search l) as [[[off' w'] rest']|]; [|done].
    intros [= <- <- <-].
    destruct (IH _ eq_refl) as (pre & -> & <- & Hpre & Hne & Hw & Hr).
    exists (c :: pre). simpl. by rewrite Hc.
Qed.

Lemma regex_search_no_word l :
  existsb is_word l = false → regex_search l = None.
Proof.
  induction l as [|c l IH]; simpl; [done|].
  destruct (is_word c); simpl; [done|]. intros Hl. by rewrite IH.
Qed.

Lemma sregex_iterator_no_word base l :
  existsb is_word l = false → sregex_iterator base l = [].
Proof.
  intros Hl. by rewrite sregex_iterator_step, regex_search_no_word.
Qed.

(** Every match is a non-empty block of word characters sitting in the line
    at its reported position. [pre] is the part of the line before [l]. *)
Lemma sregex_iterator_in_line base l :
  ∀ pre m,
    length pre = base → m ∈ sregex_iterator base l →
    ∃ before after,
      pre ++ l = before ++ matched m ++ after
      ∧ length before = position m
      ∧ matched m ≠ [] ∧ forallb is_word (matched m) = true.
Proof.
  apply (sregex_iterator_ind (λ base l ms, ∀ pre m,
    length pre = base → m ∈ ms →
    ∃ before after,
      pre ++ l = before ++ matched m ++ after
      ∧ length before = position m
      ∧ matched m ≠ [] ∧ forallb is_word (matched m) = true)).
  - intros ? ? _ ? ? _ Hin. by apply elem_of_nil in Hin.
  - clear. intros base l off w rest Hs IH pre m Hpre Hin.
    apply regex_search_some in Hs as (skip & -> & <- & Hskip & Hne & Hw & Hr).
    apply elem_of_cons in Hin as [->|Hin].
    + exists (pre ++ skip), rest. simpl.
      rewrite length_app, <- app_assoc. by rewrite Hpre.
    + destruct (IH (pre ++ skip ++ w) m) as (before & after & Heq & ?);
        [rewrite !length_app; lia|done|].
      exists before, after. by rewrite <- Heq, <- !app_assoc.
Qed.

(** ** The positions of the matches *)

Lemma run_starts_from pre l :
  List.filter (run_start (pre ++ l)) (seq (length pre) (length l))
  = starts (last_word pre) (length pre) l.
Proof.
  revert pre; induction l as [|c l IH]; intros pre; [done|].
  cbn [length seq List.filter starts].
  replace (run_start (pre ++ c :: l) (length pre))
    with (is_word c && negb (last_word pre)).
  - replace (pre ++ c :: l) with ((pre ++ [c]) ++ l) by by rewrite <- app_assoc.
    replace (S (length pre)) with (length (pre ++ [c]))
      by (rewrite length_app; simpl; lia).
    rewrite IH.
    replace (last_word (pre ++ [c])) with (is_word c)
      by (unfold last_word; by rewrite last_snoc).
    by destruct (is_word c && negb (last_word pre)).
  - unfold run_start, char_at, last_word. rewrite nth_middle. f_equal.
    destruct pre as [|d pre _] using rev_ind; [done|].
    rewrite last_snoc, length_app. simpl.
    rewrite bool_decide_eq_false_2 by lia.
    replace (length pre + 1 - 1)%nat with (length pre) by lia.
    rewrite <- app_assoc. cbn [app]. by rewrite nth_middle.
Qed.

Lemma run_starts_starts l : run_starts l = starts false 0 l.
Proof. apply (run_starts_from [] l). Qed.

Lemma starts_skip base pre l :
  existsb is_word pre = false →
  starts false base (pre ++ l) = starts false (base + length pre) l.
Proof.
  revert base; induction pre as [|c pre IH]; intros base; simpl.
  - intros _. f_equal. lia.
  - destruct (is_word c); [done|]. simpl. intros Hpre.
    rewrite IH by done. f_equal. lia.
Qed.

Lemma starts_in_run base w rest :
  forallb is_word w = true → stops rest →
  starts true base (w ++ rest) = starts false (base + length w) rest.
Proof.
  intros Hw Hr. revert base Hw; induction w as [|c w IH]; intros base; simpl.
  - intros _. rewrite Nat.add_0_r. destruct rest as [|c rest]; [done|].
    simpl in *. by rewrite Hr.
  - destruct (is_word c); [|done]. simpl. intros Hw.
    rewrite IH by done. f_equal. lia.
Qed.

(** The positions the iterator reports are the starts of the maximal runs. *)
Lemma sregex_iterator_positions base l :
  position <$> sregex_iterator base l = starts false base l.
Proof.
  apply (sregex_iterator_ind (λ base l ms,
    position <$> ms = starts false base l)); clear.
  - intros base l Hs. apply regex_search_none in Hs.
    rewrite <- (app_nil_r l). by rewrite starts_skip.
  - intros base l off w rest Hs IH.
    apply regex_search_some in Hs as (skip & -> & <- & Hskip & Hne & Hw & Hr).
    rewrite fmap_cons, IH, starts_skip by done. cbn [position].
    destruct w as [|c w]; [done|]. simpl in Hw |- *.
    apply andb_true_iff in Hw as [-> Hw]. simpl.
    rewrite starts_in_run by done. do 2 f_equal. lia.
Qed.

Lemma sregex_iterator_run_starts l :
  position <$> sregex_iterator 0 l = run_starts l.
Proof. by rewrite sregex_iterator_positions, run_starts_starts. Qed.

(** ** One line of the scan *)

Lemma for_each_scan_match line this ms parsedFile :
  for_each (scan_match line) this ms parsedFile
  = (inr (set_currentColumn
            (default (currentColumn this) (match_column <$> last ms)) this),
     parsedFile
     ++ (match_token (instructions this) (currentLine this) line <$> ms)).
Proof.
  revert this parsedFile; induction ms as [|m ms IH]; intros this parsedFile.
  - simpl. rewrite app_nil_r. by destruct this.
  - cbn [for_each]. unfold mbind, M_bind at 1.
    unfold scan_match at 1. unfold mbind, M_bind at 1. unfold push_back at 1.
    unfold mret, M_ret at 1. rewrite IH. cbn [fmap list_fmap]. f_equal.
    + f_equal. unfold set_currentColumn. cbn. f_equal.
      destruct ms as [|m' ms]; [done|]. rewrite (last_cons_cons m).
      destruct (last (m' :: ms)) eqn:E; [done | by apply last_None in E].
    + by rewrite <- app_assoc.
Qed.

Lemma scan_line_eq this line parsedFile :
  let ms := sregex_iterator 0 line in
  scan_line this line parsedFile
  = (inr (mkLexer (to_int (currentLine this + 1)) 1 (instructions this)),
     parsedFile
     ++ (match_token (instructions this) (currentLine this) line <$> ms)
     ++ [end_of_line (currentLine this)
           (default (currentColumn this) (match_column <$> last ms))]).
Proof.
  intros ms. unfold scan_line. unfold mbind, M_bind at 1.
  rewrite for_each_scan_match. fold ms.
  unfold mbind, M_bind, push_back, mret, M_ret. cbn.
  by rewrite <- app_assoc.
Qed.

Lemma emitted_eq instrs i line :
  let ms := sregex_iterator 0 line in
  emitted instrs i line
  = (match_token instrs (line_number i) line <$> ms)
    ++ [end_of_line (line_number i) (default 1 (match_column <$> last ms))].
Proof. intros ms. unfold emitted. by rewrite scan_line_eq. Qed.

Lemma scan_line_emitted instrs i line parsedFile :
  scan_line (mkLexer (line_number i) 1 instrs) line parsedFile
  = (inr (mkLexer (line_number (S i)) 1 instrs),
     parsedFile ++ emitted instrs i line).
Proof.
  rewrite emitted_eq, scan_line_eq. cbn. do 3 f_equal.
  unfold line_number. rewrite to_int_succ. f_equal. lia.
Qed.

(** ** The whole source *)

Lemma for_each_scan_line instrs lines : ∀ k parsedFile,
  for_each scan_line (mkLexer (line_number k) 1 instrs) lines parsedFile
  = (inr (mkLexer (line_number (k + length lines)) 1 instrs),
     parsedFile ++ concat (imap (λ i, emitted instrs (k + i)) lines)).
Proof.
  induction lines as [|line lines IH]; intros k parsedFile.
  - simpl. by rewrite Nat.add_0_r, app_nil_r.
  - cbn [for_each]. unfold mbind, M_bind at 1.
    rewrite scan_line_emitted, IH. cbn [imap concat length].
    rewrite Nat.add_0_r, <- app_assoc. do 3 f_equal.
    + f_equal. lia.
    + f_equal. apply imap_ext. intros j l _. simpl. f_equal. lia.
Qed.

(** The stream after a successful construction: the caller's tokens, then
    the tokens of each line in turn. *)
Lemma Lexer_new_stream source instrs parsedFileRef :
  is_open source = true →
  Lexer_new source instrs parsedFileRef
  = (inr (mkLexer (line_number (length (getlines (content source)))) 1 instrs),
     parsedFileRef ++ concat (imap (emitted instrs) (getlines (content source)))).
Proof.
  intros Hopen. unfold Lexer_new. rewrite Hopen. cbn [negb].
  apply (for_each_scan_line instrs _ 0).
Qed.

(** ** Matches on lines that fit an [int] *)

(** On a line that fits an [int], the position and the length of a match
    survive their passage through [int]: the column is the 1-based position
    and the classifier receives the matched text. *)
Lemma match_in_range line m :
  Z.of_nat (length line) ≤ INT_MAX → m ∈ sregex_iterator 0 line →
  match_column m = Z.of_nat (position m) + 1
  ∧ match_text line m = matched m.
Proof.
  intros Hlen Hin.
  destruct (sregex_iterator_in_line 0 line [] m eq_refl Hin)
    as (before & after & Heq & Hpos & Hne & _).
  simpl in Heq. subst line. rewrite !length_app in Hlen.
  assert (0 < length (matched m))%nat
    by (destruct (matched m); [done | simpl; lia]).
  unfold match_column, match_text.
  rewrite (to_int_fits (Z.of_nat (position m))) by lia.
  rewrite (to_int_fits (Z.of_nat (length (matched m)))) by lia.
  rewrite to_int_fits, to_size_t_fits, !Nat2Z.id by lia.
  split; [done|].
  rewrite drop_app_length' by done. by rewrite take_app_length.
Qed.

Lemma line_number_small i :
  Z.of_nat i < INT_MAX → line_number i = Z.of_nat i + 1.
Proof. unfold line_number. intros Hi. apply to_int_fits. lia. Qed.

Lemma match_tokens_real instrs n line ms :
  Forall is_real (match_token instrs n line <$> ms).
Proof.
  apply Forall_fmap, Forall_forall. intros m _.
  apply tokenize_not_end_of_line.
Qed.

Lemma last_match_column instrs n line ms :
  Token.column <$> last (match_token instrs n line <$> ms)
  = match_column <$> last ms.
Proof. rewrite fmap_last. by destruct (last ms). Qed.

(** * The claims *)

(** C1. No token the constructor appends has the category Label, on lines
    that fit an [int]: every match of the iterator is a non-empty block of
    word characters, it is the text the classifier receives, so the lexeme
    cannot end in a colon, and the classifier answers Label for no such
    lexeme. The classifier alone does answer Label for [loop:]; the scan of
    the line [loop:] yields an Error token [loop] and the EndOfLine token. *)
Theorem C1_no_label (source : ifstream) (instrs : gset string)
    (parsedFileRef : list Token) :
  is_open source = true →
  Forall (λ line, Z.of_nat (length line) ≤ INT_MAX)
    (getlines (content source)) →
  (∀ line m,
     line ∈ getlines (content source) → m ∈ sregex_iterator 0 line →
     match_text line m = matched m
     ∧ forallb is_word (matched m) = true
     ∧ last (matched m) ≠ Some ":"%char)
  ∧ (∃ tokens,
       (Lexer_new source instrs parsedFileRef).2 = parsedFileRef ++ tokens
       ∧ Forall (λ t, Token.type t ≠ LABEL) tokens)
  ∧ Token.type (tokenize instrs (chars "loop:") 1 1)
    = (if bool_decide ("loop:"%string ∈ instrs) then INSTRUCTION else LABEL)
  ∧ (getlines (content source) = [chars "loop:"] →
     "loop"%string ∉ instrs →
     (Lexer_new source instrs parsedFileRef).2
     = parsedFileRef
       ++ [Token.mk ERROR "loop" 1 1; end_of_line 1 1]).
Proof.
  intros Hopen Hfit.
  assert (∀ line m,
     line ∈ getlines (content source) → m ∈ sregex_iterator 0 line →
     match_text line m = matched m
     ∧ forallb is_word (matched m) = true
     ∧ last (matched m) ≠ Some ":"%char) as Hmatch.
  { intros line m Hline Hm.
    rewrite Forall_forall in Hfit.
    destruct (match_in_range line m (Hfit _ Hline) Hm) as [_ Htext].
    destruct (sregex_iterator_in_line 0 line [] m eq_refl Hm)
      as (_ & _ & _ & _ & _ & Hw).
    split_and!; [done..|].
    intros Hlast. apply last_Some_elem_of, list_elem_of_In in Hlast.
    rewrite forallb_forall in Hw. by apply Hw in Hlast. }
  split_and!; [done| | |].
  - eexists. rewrite Lexer_new_stream by done. split; [done|].
    apply Forall_concat, Forall_forall.
    intros toks (i & line & -> & Hline)%elem_of_lookup_imap.
    rewrite emitted_eq. apply Forall_app. split; [|by repeat constructor].
    apply Forall_fmap, Forall_forall. intros m Hm.
    destruct (Hmatch line m) as (Htext & Hw & _);
      [by eapply list_elem_of_lookup_2|done|].
    change (Token.type (tokenize instrs (match_text line m) (line_number i)
                          (match_column m)) ≠ LABEL).
    rewrite Htext. by apply tokenize_word_not_label.
  - case_bool_decide as Hin.
    + by apply tokenize_instruction.
    + by rewrite tokenize_string_not_instruction, tokenize_type_rules.
  - intros Hlines Hn. rewrite Lexer_new_stream, Hlines by done. f_equal.
    cbn [imap concat]. rewrite emitted_eq, app_nil_r.
    change (sregex_iterator 0 (chars "loop:")) with [mk_smatch 0 (chars "loop")].
    cbn [fmap list_fmap last]. unfold match_token.
    change (match_text (chars "loop:") (mk_smatch 0 (chars "loop")))
      with (chars "loop").
    by rewrite tokenize_rule_type.
Qed.

Lemma C1_no_label_witness :
  (Lexer_new (mk_ifstream true (chars "loop:")) {[ "add"%string ]} []).2
  = [Token.mk ERROR "loop" 1 1; end_of_line 1 1].
Proof.
  assert (Forall (λ line, Z.of_nat (length line) ≤ INT_MAX)
            (getlines (content (mk_ifstream true (chars "loop:"))))) as Hfit.
  { repeat constructor. by vm_compute. }
  destruct (C1_no_label (mk_ifstream true (chars "loop:"))
              {[ "add"%string ]} [] eq_refl Hfit) as (_ & _ & _ & Hloop).
  apply Hloop; [reflexivity|set_solver].
Defined.

(** C2. Outside the instruction set a lexeme is a Register exactly when it
    has at least two characters, starts with [x], continues with decimal
    digits only, and these digits read as a number of [0..31]. Leading zeros
    pass ([x01]); [x0] to [x31] are Registers; [x32] is an Error; [x] alone
    is no Register. *)
Theorem C2_register_rule :
  (∀ instrs str line column,
     string_of_list_ascii str ∉ instrs →
     Token.type (tokenize instrs str line column) = REGISTER
     ↔ register_rule str = true)
  ∧ (∀ instrs line column,
       "x01"%string ∉ instrs →
       Token.type (tokenize instrs (chars "x01") line column) = REGISTER)
  ∧ (∀ instrs (n : nat) line column,
       (n ≤ 31)%nat → ("x" +:+ decimal n) ∉ instrs →
       Token.type (tokenize instrs (chars ("x" +:+ decimal n)) line column)
       = REGISTER)
  ∧ (∀ instrs line column,
       "x32"%string ∉ instrs →
       Token.type (tokenize instrs (chars "x32") line column) = ERROR)
  ∧ (∀ instrs line column,
       "x"%string ∉ instrs →
       Token.type (tokenize instrs (chars "x") line column) ≠ REGISTER).
Proof.
  split_and!.
  - intros instrs str line column Hn.
    rewrite tokenize_not_instruction, tokenize_type_rules by done.
    unfold register_rule, reaches_immediate.
    destruct ((2 <=? length str)%nat && starts_with (chars "x") str);
      simpl; repeat case_match; split; congruence.
  - intros instrs line column Hn.
    by rewrite tokenize_string_not_instruction, tokenize_type_rules.
  - intros instrs n line column Hle Hn.
    rewrite tokenize_string_not_instruction, tokenize_type_rules by done.
    clear Hn. do 32 (destruct n as [|n]; [reflexivity|]). lia.
  - intros instrs line column Hn.
    by rewrite tokenize_string_not_instruction, tokenize_type_rules.
  - intros instrs line column Hn.
    by rewrite tokenize_string_not_instruction, tokenize_type_rules.
Qed.

Lemma C2_register_rule_witness :
  Token.type (tokenize {[ "add"%string ]} (chars "x17") 1 5) = REGISTER
  ∧ Token.type (tokenize {[ "add"%string ]} (chars "x32") 1 5) = ERROR.
Proof.
  destruct C2_register_rule as (_ & _ & Hreg & Herr & _). split.
  - apply (Hreg {[ "add"%string ]} 17%nat 1 5); [lia|].
    vm_compute. set_solver.
  - apply (Herr {[ "add"%string ]} 1 5). set_solver.
Defined.

(** C3. A lexeme that reaches the Immediate rule is an Immediate exactly
    when the first applicable sub-rule accepts it: binary after [0b],
    hexadecimal after [0x], decimal otherwise. A matched prefix with a bad
    body is not retried as a decimal. *)
Theorem C3_immediate_rule :
  (∀ instrs str line column,
     string_of_list_ascii str ∉ instrs → reaches_immediate str = true →
     Token.type (tokenize instrs str line column)
     = if immediate_rule str then IMMEDIATE
       else if label_rule str then LABEL else ERROR)
  ∧ (∀ instrs str line column,
       string_of_list_ascii str ∉ instrs →
       (2 <? length str)%nat && starts_with (chars "0b") str = true →
       binary_rule str = false →
       Token.type (tokenize instrs str line column) ≠ IMMEDIATE)
  ∧ (∀ instrs str line column,
       string_of_list_ascii str ∉ instrs →
       (2 <? length str)%nat && starts_with (chars "0x") str = true →
       hexadecimal_rule str = false →
       Token.type (tokenize instrs str line column) ≠ IMMEDIATE)
  ∧ (∀ instrs (s : string) line column,
       s ∈ ["0b101"; "0xFF"; "42"; "007"]%string → s ∉ instrs →
       Token.type (tokenize instrs (chars s) line column) = IMMEDIATE)
  ∧ (∀ instrs (s : string) line column,
       s ∈ ["0b102"; "0xFG"; "0b"; "0x"]%string → s ∉ instrs →
       Token.type (tokenize instrs (chars s) line column) = ERROR).
Proof.
  assert (∀ instrs str line column,
     string_of_list_ascii str ∉ instrs → reaches_immediate str = true →
     Token.type (tokenize instrs str line column)
     = if immediate_rule str then IMMEDIATE
       else if label_rule str then LABEL else ERROR) as Hrule.
  { intros instrs str line column Hn Hr.
    rewrite tokenize_not_instruction, tokenize_type_rules by done.
    rewrite Hr. unfold reaches_immediate in Hr.
    apply andb_true_iff in Hr as [_ Hr]. apply negb_true_iff in Hr.
    by rewrite Hr. }
  split_and!; [done|..].
  - intros instrs str line column Hn Hp Hb.
    rewrite Hrule; [|done|exact (starts_with_zero_reaches "b" str Hp)].
    unfold immediate_rule. rewrite Hp, Hb. by case_match.
  - intros instrs str line column Hn Hp Hb.
    rewrite Hrule; [|done|exact (starts_with_zero_reaches "x" str Hp)].
    unfold immediate_rule. rewrite Hp, Hb.
    replace ((2 <? length str)%nat && starts_with (chars "0b") str)
      with false; [by case_match|].
    symmetry. unfold starts_with in *.
    destruct str as [|a [|b [|c rest]]]; simpl in *; try done.
    apply bool_decide_eq_true in Hp as [= -> ->].
    by apply bool_decide_eq_false_2.
  - intros instrs s line column Hs Hn.
    rewrite tokenize_string_not_instruction, tokenize_type_rules by done.
    clear Hn. repeat (apply elem_of_cons in Hs as [->|Hs]; [reflexivity|]).
    by apply elem_of_nil in Hs.
  - intros instrs s line column Hs Hn.
    rewrite tokenize_string_not_instruction, tokenize_type_rules by done.
    clear Hn. repeat (apply elem_of_cons in Hs as [->|Hs]; [reflexivity|]).
    by apply elem_of_nil in Hs.
Qed.

Lemma C3_immediate_rule_witness :
  Token.type (tokenize {[ "add"%string ]} (chars "0b101") 1 1) = IMMEDIATE
  ∧ Token.type (tokenize {[ "add"%string ]} (chars "0xFG") 1 1) = ERROR.
Proof.
  destruct C3_immediate_rule as (Hrule & _ & _ & _ & Herr). split.
  - rewrite (Hrule {[ "add"%string ]} (chars "0b101") 1 1);
      [reflexivity|set_solver|reflexivity].
  - apply (Herr {[ "add"%string ]} "0xFG"%string 1 1); set_solver.
Defined.

(** C4. A lexeme found in the instruction set is an Instruction, whatever
    the later rules would make of it: with ["x5"] in the set the lexeme [x5]
    is an Instruction, not a Register. Membership is exact: a set holding
    [ADD] does not make [add] an instruction. *)
Theorem C4_instruction_first :
  (∀ instrs str line column,
     string_of_list_ascii str ∈ instrs →
     Token.type (tokenize instrs str line column) = INSTRUCTION)
  ∧ (∀ instrs line column,
       "x5"%string ∈ instrs →
       Token.type (tokenize instrs (chars "x5") line column) = INSTRUCTION)
  ∧ (∀ instrs line column,
       "x5"%string ∉ instrs →
       Token.type (tokenize instrs (chars "x5") line column) = REGISTER)
  ∧ (∀ line column,
       Token.type (tokenize {[ "ADD"%string ]} (chars "add") line column)
       = ERROR).
Proof.
  split_and!.
  - intros instrs str line column. apply tokenize_instruction.
  - intros instrs line column Hx. by apply tokenize_instruction.
  - intros instrs line column Hx.
    by rewrite tokenize_string_not_instruction, tokenize_type_rules.
  - intros line column.
    rewrite tokenize_string_not_instruction, tokenize_type_rules; [done|].
    set_solver.
Qed.

Lemma C4_instruction_first_witness :
  Token.type (tokenize {[ "add"%string; "x5"%string ]} (chars "x5") 2 7)
  = INSTRUCTION.
Proof.
  destruct C4_instruction_first as (Hin & _).
  apply (Hin {[ "add"%string; "x5"%string ]} (chars "x5") 2 7).
  vm_compute. set_solver.
Defined.

(** C5. A source whose only line is [add x1 x2 x3], scanned with an
    instruction set that holds [add] (and none of the three register names),
    yields the Instruction [add] in column 1, the Registers [x1], [x2], [x3]
    in columns 5, 8, 11 and the EndOfLine token in column 11, all on line 1,
    appended in this order and nothing else. *)
Theorem C5_add_line (source : ifstream) (instrs : gset string)
    (parsedFileRef : list Token) :
  is_open source = true →
  getlines (content source) = [chars "add x1 x2 x3"] →
  "add"%string ∈ instrs →
  "x1"%string ∉ instrs → "x2"%string ∉ instrs → "x3"%string ∉ instrs →
  Lexer_new source instrs parsedFileRef
  = (inr (mkLexer 2 1 instrs),
     parsedFileRef
     ++ [Token.mk INSTRUCTION "add" 1 1;
         Token.mk REGISTER "x1" 1 5;
         Token.mk REGISTER "x2" 1 8;
         Token.mk REGISTER "x3" 1 11;
         Token.mk END_OF_LINE end_of_line_lexeme 1 11]).
Proof.
  intros Hopen Hlines Hadd Hx1 Hx2 Hx3.
  rewrite Lexer_new_stream, Hlines by done. do 2 f_equal.
  cbn [imap concat]. rewrite emitted_eq, app_nil_r.
  change (sregex_iterator 0 (chars "add x1 x2 x3"))
    with [mk_smatch 0 (chars "add"); mk_smatch 4 (chars "x1");
          mk_smatch 7 (chars "x2"); mk_smatch 10 (chars "x3")].
  cbn [fmap list_fmap app]. unfold match_token.
  repeat match goal with
         | |- context [match_text ?l (mk_smatch ?p ?w)] =>
             change (match_text l (mk_smatch p w)) with w
         end.
  rewrite (tokenize_fields _ (chars "add")), tokenize_instruction by done.
  by rewrite !tokenize_rule_type.
Qed.

Lemma C5_add_line_witness :
  Lexer_new (mk_ifstream true (chars "add x1 x2 x3")) {[ "add"%string ]} []
  = (inr (mkLexer 2 1 {[ "add"%string ]}),
     [Token.mk INSTRUCTION "add" 1 1;
      Token.mk REGISTER "x1" 1 5;
      Token.mk REGISTER "x2" 1 8;
      Token.mk REGISTER "x3" 1 11;
      Token.mk END_OF_LINE end_of_line_lexeme 1 11]).
Proof.
  apply (C5_add_line (mk_ifstream true (chars "add x1 x2 x3"))
           {[ "add"%string ]} []); [reflexivity|reflexivity|set_solver..].
Defined.

(** C6. For each line the body of the line loop appends one token per
    maximal run of the line and then one EndOfLine token, whose column is
    the value the column member holds at that moment: the column of the last
    token pushed for the line, or the value the line started with. In the
    stream of a constructed lexer every line of the source contributes, in
    order, its real tokens followed by exactly one EndOfLine token; on a
    line that fits an [int] the real tokens stand in the columns where the
    runs start, and the EndOfLine token stands in the column where the last
    run of the line starts, or in column 1 when the line has no run. *)
Theorem C6_end_of_line (source : ifstream) (instrs : gset string)
    (parsedFileRef : list Token) :
  is_open source = true →
  (∀ this line parsedFile, ∃ this' real,
     for_each (scan_match line) this (sregex_iterator 0 line) parsedFile
     = (inr this', parsedFile ++ real)
     ∧ currentColumn this'
       = default (currentColumn this) (Token.column <$> last real)
     ∧ (scan_line this line parsedFile).2
       = parsedFile ++ real
         ++ [end_of_line (currentLine this) (currentColumn this')]
     ∧ Forall is_real real
     ∧ length real = length (run_starts line)
     ∧ (Z.of_nat (length line) ≤ INT_MAX →
        Token.column <$> real
        = (λ p : nat, Z.of_nat p + 1) <$> run_starts line
        ∧ currentColumn this'
          = default (currentColumn this)
              ((λ p : nat, Z.of_nat p + 1) <$> last (run_starts line))))
  ∧ (Lexer_new source instrs parsedFileRef).2
    = parsedFileRef
      ++ concat (imap (emitted instrs) (getlines (content source)))
  ∧ (∀ i line,
       getlines (content source) !! i = Some line →
       ∃ real,
         emitted instrs i line
         = real ++ [end_of_line (line_number i)
                      (default 1 (Token.column <$> last real))]
         ∧ Forall is_real real
         ∧ length real = length (run_starts line)
         ∧ (Z.of_nat (length line) ≤ INT_MAX →
            Token.column <$> real
            = (λ p : nat, Z.of_nat p + 1) <$> run_starts line
            ∧ emitted instrs i line
              = real
                ++ [end_of_line (line_number i)
                      (default 1 ((λ p : nat, Z.of_nat p + 1)
                                    <$> last (run_starts line)))])).
Proof.
  intros Hopen.
  assert (∀ ins n line,
    length (match_token ins n line <$> sregex_iterator 0 line)
    = length (run_starts line)) as Hcount.
  { intros ins n line.
    by rewrite length_fmap, <- sregex_iterator_run_starts, length_fmap. }
  assert (∀ ins n line,
    Z.of_nat (length line) ≤ INT_MAX →
    Token.column <$> (match_token ins n line <$> sregex_iterator 0 line)
    = (λ p : nat, Z.of_nat p + 1) <$> run_starts line) as Hcolumns.
  { intros ins n line Hlen. rewrite <- sregex_iterator_run_starts.
    rewrite <- !list_fmap_compose. apply Forall_fmap_ext, Forall_forall.
    intros m Hm. cbn. by destruct (match_in_range line m Hlen Hm) as [-> _]. }
  assert (∀ line,
    Z.of_nat (length line) ≤ INT_MAX →
    match_column <$> last (sregex_iterator 0 line)
    = (λ p : nat, Z.of_nat p + 1) <$> last (run_starts line)) as Hlast.
  { intros line Hlen. rewrite <- sregex_iterator_run_starts, fmap_last.
    destruct (last (sregex_iterator 0 line)) as [m|] eqn:Hm; [|done].
    apply last_Some_elem_of in Hm. cbn.
    by destruct (match_in_range line m Hlen Hm) as [-> _]. }
  split_and!.
  - intros this line parsedFile.
    exists (set_currentColumn
              (default (currentColumn this)
                 (match_column <$> last (sregex_iterator 0 line))) this),
      (match_token (instructions this) (currentLine this) line
         <$> sregex_iterator 0 line).
    rewrite for_each_scan_match, scan_line_eq. cbn [snd].
    split_and!; [done| |done| | |].
    + cbn. by rewrite last_match_column.
    + apply match_tokens_real.
    + apply Hcount.
    + intros Hlen. split; [by apply Hcolumns|].
      cbn. by rewrite Hlast.
  - by rewrite Lexer_new_stream.
  - intros i line _.
    exists (match_token instrs (line_number i) line <$> sregex_iterator 0 line).
    rewrite emitted_eq. split_and!.
    + by rewrite last_match_column.
    + apply match_tokens_real.
    + apply Hcount.
    + intros Hlen. split; [by apply Hcolumns|]. by rewrite Hlast.
Qed.

Lemma C6_end_of_line_witness :
  ∃ real,
    emitted {[ "add"%string ]} 0 (chars "add x1, x2")
    = real ++ [end_of_line 1 9]
    ∧ length real = 3%nat
    ∧ Token.column <$> real = [1; 5; 9].
Proof.
  destruct (C6_end_of_line example_source {[ "add"%string ]} [] eq_refl)
    as (_ & _ & Hline).
  destruct (Hline 0%nat (chars "add x1, x2") eq_refl)
    as (real & _ & _ & Hlen & Hfit).
  destruct Hfit as [Hcol Heol]; [by vm_compute|].
  by exists real.
Defined.

(** C7. Line [i] of the source (counted from 0) contributes as many real
    tokens as the line has maximal runs of word characters, then its
    EndOfLine token. While the counters fit an [int], every token of the
    line carries the line number [i + 1], the real tokens carry, in order,
    the 1-based start positions of the runs, and their lexemes are non-empty
    and made of word characters only: no separator gets into a token. *)
Theorem C7_tokens_are_runs (source : ifstream) (instrs : gset string)
    (parsedFileRef : list Token) :
  is_open source = true →
  (Lexer_new source instrs parsedFileRef).2
  = parsedFileRef
    ++ concat (imap (emitted instrs) (getlines (content source)))
  ∧ (∀ i line,
       getlines (content source) !! i = Some line →
       ∃ real eol,
         emitted instrs i line = real ++ [eol]
         ∧ Token.type eol = END_OF_LINE
         ∧ Forall is_real real
         ∧ length real = length (run_starts line)
         ∧ (Z.of_nat i < INT_MAX →
            Forall (λ t, Token.line t = Z.of_nat i + 1) (real ++ [eol]))
         ∧ (Z.of_nat (length line) ≤ INT_MAX →
            Token.column <$> real
            = (λ p : nat, Z.of_nat p + 1) <$> run_starts line)
         ∧ (Z.of_nat (length line) ≤ INT_MAX →
            Forall (λ t, ∃ w, Token.lexeme t = string_of_list_ascii w
                              ∧ w ≠ [] ∧ forallb is_word w = true) real)).
Proof.
  intros Hopen. split; [by rewrite Lexer_new_stream|].
  intros i line _. eexists _, _. rewrite emitted_eq. split_and!; try done.
  - apply match_tokens_real.
  - by rewrite length_fmap, <- sregex_iterator_run_starts, length_fmap.
  - intros Hi. rewrite line_number_small by done.
    apply Forall_app. split; [|by repeat constructor].
    by apply Forall_fmap, Forall_forall.
  - intros Hlen. rewrite <- sregex_iterator_run_starts.
    rewrite <- !list_fmap_compose. apply Forall_fmap_ext, Forall_forall.
    intros m Hm. cbn. by destruct (match_in_range line m Hlen Hm) as [-> _].
  - intros Hlen. apply Forall_fmap, Forall_forall. intros m Hm.
    destruct (match_in_range line m Hlen Hm) as [_ Htext].
    destruct (sregex_iterator_in_line 0 line [] m eq_refl Hm)
      as (_ & _ & _ & _ & Hne & Hw).
    exists (matched m). cbn. by rewrite Htext.
Qed.

Lemma C7_tokens_are_runs_witness :
  ∃ real eol,
    emitted {[ "add"%string ]} 0 (chars "add x1, x2") = real ++ [eol]
    ∧ length real = 3%nat
    ∧ Forall (λ t, Token.line t = 1) (real ++ [eol])
    ∧ Token.column <$> real = [1; 5; 9].
Proof.
  destruct (C7_tokens_are_runs example_source {[ "add"%string ]} [] eq_refl)
    as (_ & Hline).
  destruct (Hline 0%nat (chars "add x1, x2") eq_refl)
    as (real & eol & Heq & _ & _ & Hlen & Hln & Hcol & _).
  exists real, eol. split_and!; [done|done| |].
  - by apply Hln.
  - by apply Hcol.
Defined.

(** C8. [peekNextToken] and [getNextToken] each end in the empty-stream
    error exactly when the deque holds no token. Otherwise peek returns the
    head and leaves the deque as it is, and pop returns the head and leaves
    the tail. A failing peek or pop leaves the deque unchanged. *)
Theorem C8_peek_pop (this : Lexer) (parsedFile : list Token) :
  (empty_stream_error (peekNextToken this parsedFile).1 ↔ parsedFile = [])
  ∧ (empty_stream_error (getNextToken this parsedFile).1 ↔ parsedFile = [])
  ∧ (∀ e, (peekNextToken this parsedFile).1 = inl e →
          empty_stream_error (peekNextToken this parsedFile).1
          ∧ (peekNextToken this parsedFile).2 = parsedFile)
  ∧ (∀ e, (getNextToken this parsedFile).1 = inl e →
          empty_stream_error (getNextToken this parsedFile).1
          ∧ (getNextToken this parsedFile).2 = parsedFile)
  ∧ (∀ front rest, parsedFile = front :: rest →
       peekNextToken this parsedFile = (inr front, front :: rest)
       ∧ getNextToken this parsedFile = (inr front, rest)
       ∧ hasMoreTokens this parsedFile = (inr true, front :: rest)).
Proof.
  unfold empty_stream_error.
  destruct parsedFile as [|front rest]; simpl; split_and!;
    try (split; [by intros [? [=]] | done]);
    try (split; [done | by eexists]);
    try (intros e [=]; split; [by eexists | done]);
    try done.
  intros ? ? [= <- <-]. done.
Qed.

Lemma C8_peek_pop_witness :
  getNextToken (mkLexer 2 1 ∅)
    [Token.mk REGISTER "x1" 1 5; end_of_line 1 5]
  = (inr (Token.mk REGISTER "x1" 1 5), [end_of_line 1 5])
  ∧ (getNextToken (mkLexer 2 1 ∅) []).2 = [].
Proof.
  split.
  - destruct (C8_peek_pop (mkLexer 2 1 ∅)
                [Token.mk REGISTER "x1" 1 5; end_of_line 1 5])
      as (_ & _ & _ & _ & Hhead).
    by destruct (Hhead _ _ eq_refl) as (_ & ? & _).
  - destruct (C8_peek_pop (mkLexer 2 1 ∅) []) as (_ & _ & _ & Hfail & _).
    by destruct (Hfail (out_of_range "No tokens available.") eq_refl).
Defined.

(** C9. Constructing the lexer on a stream that is not open throws the
    initialization error and leaves the caller's deque exactly as it was. *)
Theorem C9_construction_failure
    (source : ifstream) (instructionsSet : gset string)
    (parsedFileRef : list Token) :
  is_open source = false →
  Lexer_new source instructionsSet parsedFileRef
  = (inl (runtime_error "Source file not found!"), parsedFileRef).
Proof. intros Hclosed. unfold Lexer_new. by rewrite Hclosed. Qed.

Lemma C9_construction_failure_witness :
  Lexer_new (mk_ifstream false (chars "add x1 x2 x3")) {[ "add"%string ]}
    [Token.mk REGISTER "x1" 1 5]
  = (inl (runtime_error "Source file not found!"),
     [Token.mk REGISTER "x1" 1 5]).
Proof. by apply C9_construction_failure. Defined.

(** C10. The column member is 1 when a line starts: the constructor sets it
    to 1 and the line loop sets it back to 1 after each line. A line without
    any word character therefore contributes a single EndOfLine token, in
    column 1. *)
Theorem C10_blank_line_column (source : ifstream) (instrs : gset string)
    (parsedFileRef : list Token) :
  is_open source = true →
  (∃ this,
     Lexer_new source instrs parsedFileRef
     = (inr this,
        parsedFileRef
        ++ concat (imap (emitted instrs) (getlines (content source))))
     ∧ currentColumn this = 1)
  ∧ (∀ this line parsedFile, ∃ this',
       scan_line this line parsedFile
       = (inr this', (scan_line this line parsedFile).2)
       ∧ currentColumn this' = 1)
  ∧ (∀ i line,
       getlines (content source) !! i = Some line →
       existsb is_word line = false →
       emitted instrs i line = [end_of_line (line_number i) 1]).
Proof.
  intros Hopen. split_and!.
  - eexists. by rewrite Lexer_new_stream.
  - intros this line parsedFile. eexists. by rewrite scan_line_eq.
  - intros i line _ Hblank.
    by rewrite emitted_eq, sregex_iterator_no_word.
Qed.

Lemma C10_blank_line_column_witness :
  emitted {[ "add"%string ]} 1 [] = [end_of_line 2 1].
Proof.
  destruct (C10_blank_line_column example_source {[ "add"%string ]} [] eq_refl)
    as (_ & _ & Hblank).
  by apply (Hblank 1%nat []).
Defined.

(** * Further properties *)

(** ** The lines of the source *)

Lemma getlines_nil s : getlines s = [] → s = [].
Proof.
  destruct s as [|c s]; [done|]. simpl.
  destruct (c =c? newline); [done|]. by destruct (getlines s).
Qed.

Lemma ends_line_cons c s : s ≠ [] → ends_line (c :: s) = ends_line s.
Proof.
  intros Hs. unfold ends_line. destruct s as [|d s]; [done|].
  by rewrite last_cons_cons.
Qed.

Lemma unlines_getlines s :
  unlines (getlines s) = s ++ (if ends_line s then [] else [newline]).
Proof.
  induction s as [|c s IH]; [done|]. cbn [getlines].
  destruct (c =c? newline) eqn:Hc.
  - apply ascii_eqb_true in Hc as ->.
    change (unlines ([] :: getlines s)) with (newline :: unlines (getlines s)).
    rewrite IH. destruct s as [|d s]; [done|].
    by rewrite (ends_line_cons newline).
  - destruct (getlines s) as [|l ls] eqn:Hl.
    + apply getlines_nil in Hl as ->. unfold ends_line. simpl. by rewrite Hc.
    + assert (s ≠ []) as Hs by (by intros ->).
      rewrite (ends_line_cons c) by done.
      change (unlines ((c :: l) :: ls)) with (c :: unlines (l :: ls)).
      by rewrite IH.
Qed.

Lemma getlines_no_newline s : Forall (λ l, newline ∉ l) (getlines s).
Proof.
  induction s as [|c s IH]; simpl; [constructor|].
  destruct (c =c? newline) eqn:Hc.
  - constructor; [apply not_elem_of_nil|done].
  - destruct (getlines s) as [|l ls].
    + repeat constructor. intros Hin%list_elem_of_singleton.
      subst c. unfold ascii_eqb in Hc. by rewrite Ascii.eqb_refl in Hc.
    + inversion IH as [|? ? Hl Hls]; subst. constructor; [|done].
      intros [Heq|Hin]%elem_of_cons; [|done]. subst c.
      unfold ascii_eqb in Hc. by rewrite Ascii.eqb_refl in Hc.
Qed.

Lemma getlines_line l s :
  newline ∉ l → getlines (l ++ newline :: s) = l :: getlines s.
Proof.
  induction l as [|c l IH]; intros Hl; simpl.
  - done.
  - apply not_elem_of_cons in Hl as [Hc Hl].
    rewrite ascii_eqb_decide, bool_decide_eq_false_2 by done.
    by rewrite IH.
Qed.

(** X7. [std::getline] cuts the source at its newlines and nowhere else: no
    line holds a newline; putting a newline back after every line gives the
    source again, with one final newline added when the source did not end
    with one; and a text built from lines that way is read back as exactly
    these lines. *)
Theorem X7_getlines_round_trip :
  (∀ s, Forall (λ l, newline ∉ l) (getlines s))
  ∧ (∀ s, unlines (getlines s)
          = s ++ (if ends_line s then [] else [newline]))
  ∧ (∀ lines, Forall (λ l, newline ∉ l) lines →
              getlines (unlines lines) = lines).
Proof.
  split_and!; [apply getlines_no_newline|apply unlines_getlines|].
  intros lines Hlines. induction Hlines as [|l lines Hl _ IH]; [done|].
  change (unlines (l :: lines)) with ((l ++ [newline]) ++ unlines lines).
  rewrite <- app_assoc. cbn [app]. by rewrite getlines_line, IH.
Qed.

Lemma X7_getlines_round_trip_witness :
  getlines (unlines [chars "add x1, x2"; []; chars "loop:"])
  = [chars "add x1, x2"; []; chars "loop:"].
Proof.
  destruct X7_getlines_round_trip as (_ & _ & Hback).
  apply Hback. apply (bool_decide_unpack _). by vm_compute.
Defined.

(** ** The classifier on its own *)

Lemma forallb_drop_snoc (P : ascii → bool) n init c :
  P c = false → (n ≤ length init)%nat →
  forallb P (drop n (init ++ [c])) = false.
Proof.
  intros Hc Hn. rewrite drop_app_le by done.
  rewrite forallb_app. simpl. rewrite Hc. by rewrite andb_false_r.
Qed.

Lemma label_rule_snoc str :
  label_rule str = true → ∃ init, str = init ++ [":"%char].
Proof.
  unfold label_rule. destruct str as [|c init _] using rev_ind; [done|].
  rewrite reverse_snoc. intros [-> _]%bool_decide_eq_true. by exists init.
Qed.

(** A lexeme that ends in a colon passes neither the register rule nor the
    immediate rule. *)
Lemma label_rule_exclusive str :
  label_rule str = true →
  register_rule str = false ∧ immediate_rule str = false.
Proof.
  intros (init & ->)%label_rule_snoc. split.
  - unfold register_rule.
    destruct (2 <=? length (init ++ [":"%char]))%nat eqn:Hlen; [|done].
    apply Nat.leb_le in Hlen. rewrite length_app in Hlen. simpl in Hlen.
    rewrite (forallb_drop_snoc isdigit) by (done || lia).
    by rewrite andb_false_r.
  - unfold immediate_rule, binary_rule, hexadecimal_rule, decimal_rule.
    assert (forallb isdigit (init ++ [":"%char]) = false) as ->
      by (apply (forallb_drop_snoc isdigit 0); [done|lia]).
    destruct (2 <? length (init ++ [":"%char]))%nat eqn:Hlen.
    + apply Nat.ltb_lt in Hlen. rewrite length_app in Hlen. simpl in Hlen.
      rewrite (forallb_drop_snoc _ 2), (forallb_drop_snoc isxdigit 2)
        by (done || lia).
      by repeat case_match.
    + done.
Qed.

(** X8. The classifier taken alone does recognise labels: a lexeme outside
    the instruction set is a Label exactly when its last character is a
    colon and no underscore comes before it. *)
Theorem X8_label_rule instrs str line column :
  string_of_list_ascii str ∉ instrs →
  Token.type (tokenize instrs str line column) = LABEL
  ↔ label_rule str = true.
Proof.
  intros Hn. rewrite tokenize_not_instruction, tokenize_type_rules by done.
  destruct (label_rule str) eqn:Hl.
  - destruct (label_rule_exclusive str Hl) as [-> ->].
    rewrite andb_false_r. by case_match.
  - split; [|done]. by repeat case_match.
Qed.

Lemma X8_label_rule_witness :
  Token.type (tokenize {[ "add"%string ]} (chars "loop:") 3 1) = LABEL
  ∧ Token.type (tokenize {[ "add"%string ]} (chars "my_loop:") 3 1) ≠ LABEL.
Proof.
  split.
  - apply X8_label_rule; [set_solver|reflexivity].
  - intros Hl. apply X8_label_rule in Hl; [done|set_solver].
Defined.

Lemma forallb_impl (P Q : ascii → bool) l :
  (∀ c, P c = true → Q c = true) →
  forallb P l = true → forallb Q l = true.
Proof.
  intros HPQ. induction l as [|c l IH]; simpl; [done|].
  intros [Hc Hl]%andb_true_iff. by rewrite HPQ, IH.
Qed.

Lemma isdigit_word c : isdigit c = true → is_word c = true.
Proof.
  unfold isdigit, is_word. intros ->. by rewrite orb_true_r.
Qed.

Lemma isxdigit_word c : isxdigit c = true → is_word c = true.
Proof.
  unfold isxdigit. intros [[Hd|Hu]%orb_true_iff|Hl]%orb_true_iff.
  - by apply isdigit_word.
  - unfold is_word. apply andb_true_iff in Hu as [Hlo Hhi].
    apply Z.leb_le in Hhi.
    replace (code c <=? 90) with true by (symmetry; apply Z.leb_le; lia).
    rewrite Hlo. simpl. by rewrite orb_true_r.
  - unfold is_word. apply andb_true_iff in Hl as [Hlo Hhi].
    apply Z.leb_le in Hhi.
    replace (code c <=? 122) with true by (symmetry; apply Z.leb_le; lia).
    by rewrite Hlo.
Qed.

Lemma binary_digit_word c :
  bool_decide (c = "0"%char ∨ c = "1"%char) = true → is_word c = true.
Proof. by intros [->| ->]%bool_decide_eq_true. Qed.

Lemma register_rule_word str :
  register_rule str = true → forallb is_word str = true.
Proof.
  unfold register_rule, starts_with.
  intros [[[[_ Hx]%andb_true_iff Hd]%andb_true_iff _]%andb_true_iff _]
    %andb_true_iff.
  destruct str as [|a rest]; [done|].
  apply bool_decide_eq_true in Hx. simpl in Hx. injection Hx as ->.
  change (forallb is_word rest = true).
  change (forallb isdigit rest = true) in Hd. revert Hd.
  apply forallb_impl, isdigit_word.
Qed.

Lemma immediate_rule_word str :
  immediate_rule str = true → forallb is_word str = true.
Proof.
  unfold immediate_rule, starts_with, binary_rule, hexadecimal_rule,
    decimal_rule.
  destruct ((2 <? length str)%nat && _) eqn:Hb.
  { apply andb_true_iff in Hb as [_ Hb]. apply bool_decide_eq_true in Hb.
    destruct str as [|a [|b rest]]; try done. simpl in Hb.
    injection Hb as -> ->.
    change (forallb is_word ("0"%char :: "b"%char :: rest))
      with (forallb is_word rest).
    apply forallb_impl, binary_digit_word. }
  clear Hb.
  destruct ((2 <? length str)%nat
            && bool_decide (take (length (chars "0x")) str = chars "0x"))
    eqn:Hx.
  { apply andb_true_iff in Hx as [_ Hx]. apply bool_decide_eq_true in Hx.
    destruct str as [|a [|b rest]]; try done. simpl in Hx.
    injection Hx as -> ->.
    change (forallb is_word ("0"%char :: "x"%char :: rest))
      with (forallb is_word rest).
    apply forallb_impl, isxdigit_word. }
  apply forallb_impl, isdigit_word.
Qed.

(** X12. Outside the instruction set, a lexeme classified as Register or as
    Immediate consists of word characters only: none of them holds a
    separator, so the run extraction of the constructor can deliver each of
    them whole. *)
Theorem X12_operands_are_words instrs str line column :
  string_of_list_ascii str ∉ instrs →
  Token.type (tokenize instrs str line column) = REGISTER
  ∨ Token.type (tokenize instrs str line column) = IMMEDIATE →
  forallb is_word str = true.
Proof.
  intros Hn. rewrite tokenize_not_instruction, tokenize_type_rules by done.
  destruct ((2 <=? length str)%nat && starts_with (chars "x") str).
  - destruct (register_rule str) eqn:Hr.
    + intros _. by apply register_rule_word.
    + by case_match; intros [|].
  - destruct (immediate_rule str) eqn:Hi.
    + intros _. by apply immediate_rule_word.
    + rewrite andb_false_r. by case_match; intros [|].
Qed.

Lemma X12_operands_are_words_witness :
  forallb is_word (chars "0x1F") = true.
Proof.
  apply (X12_operands_are_words {[ "add"%string ]} (chars "0x1F") 1 5);
    [set_solver|by right].
Defined.

(** ** Reading the stream *)

(** X9. [hasMoreTokens] is an exact guard for the two accessors and changes
    nothing: it answers true exactly when [peekNextToken] returns a token,
    and exactly when [getNextToken] does. On a deque that holds a token,
    peeking twice gives its head twice and keeps the deque, and a pop after
    a peek returns the token that was peeked and leaves the tail. *)
Theorem X9_has_more_guard (this : Lexer) (parsedFile : list Token) :
  hasMoreTokens this parsedFile
  = (inr (bool_decide (parsedFile ≠ [])), parsedFile)
  ∧ ((hasMoreTokens this parsedFile).1 = inr true
     ↔ ∃ tok, (peekNextToken this parsedFile).1 = inr tok)
  ∧ ((hasMoreTokens this parsedFile).1 = inr true
     ↔ ∃ tok, (getNextToken this parsedFile).1 = inr tok)
  ∧ (∀ front rest,
       parsedFile = front :: rest →
       (a ← peekNextToken this; b ← peekNextToken this; mret (a, b))
         parsedFile
       = (inr (front, front), front :: rest)
       ∧ (a ← peekNextToken this; b ← getNextToken this; mret (a, b))
           parsedFile
         = (inr (front, front), rest)).
Proof.
  destruct parsedFile as [|front rest]; split_and!; try done.
  - split; [done|]. by intros [? ?].
  - split; [done|]. by intros [? ?].
  - split; [by exists front|done].
  - split; [by exists front|done].
  - by intros ? ? [= <- <-].
Qed.

Lemma getTokens_take this n : ∀ parsedFile,
  (n ≤ length parsedFile)%nat →
  getTokens this n parsedFile = (inr (take n parsedFile), drop n parsedFile).
Proof.
  induction n as [|n IH]; intros parsedFile Hn; [done|].
  destruct parsedFile as [|tok rest]; [simpl in Hn; lia|].
  cbn [getTokens]. unfold mbind, M_bind at 1. cbn [getNextToken].
  unfold mbind, M_bind at 1. rewrite IH by (simpl in Hn; lia). done.
Qed.

Lemma getTokens_short this n : ∀ parsedFile,
  (length parsedFile < n)%nat →
  getTokens this n parsedFile
  = (inl (out_of_range "No tokens available."), []).
Proof.
  induction n as [|n IH]; intros parsedFile Hn; [lia|].
  destruct parsedFile as [|tok rest]; [done|].
  cbn [getTokens]. unfold mbind, M_bind at 1. cbn [getNextToken].
  unfold mbind, M_bind at 1. rewrite IH by (simpl in Hn; lia). done.
Qed.

(** X10. The stream is first in, first out: [n] calls of [getNextToken] on a
    deque that holds at least [n] tokens return its first [n] tokens in
    their order and leave the others; as many calls as there are tokens
    return the whole stream and leave it empty; one call more ends in the
    empty-stream exception, with every token consumed. *)
Theorem X10_fifo (this : Lexer) (parsedFile : list Token) (n : nat) :
  ((n ≤ length parsedFile)%nat →
   getTokens this n parsedFile = (inr (take n parsedFile), drop n parsedFile))
  ∧ getTokens this (length parsedFile) parsedFile = (inr parsedFile, [])
  ∧ ((length parsedFile < n)%nat →
     getTokens this n parsedFile
     = (inl (out_of_range "No tokens available."), [])).
Proof.
  split_and!.
  - apply getTokens_take.
  - rewrite getTokens_take by done. by rewrite firstn_all, drop_all.
  - apply getTokens_short.
Qed.

Lemma X10_fifo_witness :
  getTokens (mkLexer 2 1 ∅) 2
    [Token.mk INSTRUCTION "add" 1 1; Token.mk REGISTER "x1" 1 5;
     end_of_line 1 5]
  = (inr [Token.mk INSTRUCTION "add" 1 1; Token.mk REGISTER "x1" 1 5],
     [end_of_line 1 5]).
Proof.
  destruct (X10_fifo (mkLexer 2 1 ∅)
              [Token.mk INSTRUCTION "add" 1 1; Token.mk REGISTER "x1" 1 5;
               end_of_line 1 5] 2) as (Htake & _).
  apply Htake. simpl. lia.
Defined.

(** ** The diagnostic dump *)



(** ** The matches of a line, one against the other *)

Lemma last_word_skip pre skip :
  skip ≠ [] → existsb is_word skip = false → last_word (pre ++ skip) = false.
Proof.
  destruct skip as [|c skip _] using rev_ind; [done|]. intros _ Hskip.
  rewrite existsb_app in Hskip. simpl in Hskip.
  apply orb_false_iff in Hskip as [_ Hc]. rewrite orb_false_r in Hc.
  unfold last_word. by rewrite app_assoc, last_snoc.
Qed.

Lemma stops_word c w rest :
  forallb is_word (c :: w) = true → ¬ stops ((c :: w) ++ rest).
Proof. simpl. intros [Hc _]%andb_true_iff Hs. congruence. Qed.

(** Every match is a maximal run: the line has no word character just
    before it and none just after it. *)
Lemma sregex_iterator_maximal base l :
  ∀ pre m,
    length pre = base → stops l ∨ last_word pre = false →
    m ∈ sregex_iterator base l →
    ∃ before after,
      pre ++ l = before ++ matched m ++ after
      ∧ length before = position m
      ∧ matched m ≠ [] ∧ forallb is_word (matched m) = true
      ∧ last_word before = false ∧ stops after.
Proof.
  apply (sregex_iterator_ind (λ base l ms, ∀ pre m,
    length pre = base → stops l ∨ last_word pre = false → m ∈ ms →
    ∃ before after,
      pre ++ l = before ++ matched m ++ after
      ∧ length before = position m
      ∧ matched m ≠ [] ∧ forallb is_word (matched m) = true
      ∧ last_word before = false ∧ stops after)).
  - intros ? ? _ ? ? _ _ Hin. by apply elem_of_nil in Hin.
  - clear. intros base l off w rest Hs IH pre m Hpre Hedge Hin.
    apply regex_search_some in Hs as (skip & -> & <- & Hskip & Hne & Hw & Hr).
    apply elem_of_cons in Hin as [->|Hin].
    + exists (pre ++ skip), rest. simpl.
      rewrite length_app, <- app_assoc, Hpre. split_and!; try done.
      destruct skip as [|c skip]; [|by apply last_word_skip].
      rewrite app_nil_r. destruct Hedge as [Hstop|Hlast]; [|done].
      destruct w as [|c w]; [done|]. by apply stops_word in Hstop.
    + destruct (IH (pre ++ skip ++ w) m) as (before & after & Heq & ?);
        [rewrite !length_app; lia|by left|done|].
      exists before, after. by rewrite <- Heq, <- !app_assoc.
Qed.

(** A match lies at or after the place the search started from, and after it
    when nothing matches at that place. *)
Lemma sregex_iterator_position_lower base l :
  ∀ m, m ∈ sregex_iterator base l →
       (base ≤ position m)%nat ∧ (stops l → (base < position m)%nat).
Proof.
  apply (sregex_iterator_ind (λ base l ms, ∀ m, m ∈ ms →
    (base ≤ position m)%nat ∧ (stops l → (base < position m)%nat))).
  - intros ? ? _ ? Hin. by apply elem_of_nil in Hin.
  - clear. intros base l off w rest Hs IH m Hin.
    apply regex_search_some in Hs as (skip & -> & <- & Hskip & Hne & Hw & Hr).
    assert (0 < length w)%nat by (destruct w; [done|simpl; lia]).
    apply elem_of_cons in Hin as [->|Hin]; simpl.
    + split; [lia|]. intros Hstop.
      destruct skip as [|c skip]; [|simpl; lia].
      destruct w as [|c w]; [done|]. by apply stops_word in Hstop.
    + destruct (IH m Hin) as [Hle _]. split; [lia|]. intros _. lia.
Qed.

(** The matches come from left to right and do not touch: a later match
    starts beyond the end of an earlier one, at least one character apart. *)
Lemma sregex_iterator_separated base l :
  ∀ j k m m',
    (j < k)%nat →
    sregex_iterator base l !! j = Some m →
    sregex_iterator base l !! k = Some m' →
    (position m + length (matched m) < position m')%nat.
Proof.
  apply (sregex_iterator_ind (λ base l ms, ∀ j k m m',
    (j < k)%nat → ms !! j = Some m → ms !! k = Some m' →
    (position m + length (matched m) < position m')%nat)).
  - intros ? ? _ ? ? ? ? _ Hj. by rewrite lookup_nil in Hj.
  - clear. intros base l off w rest Hs IH j k m m' Hjk Hj Hk.
    apply regex_search_some in Hs as (skip & -> & <- & Hskip & Hne & Hw & Hr).
    destruct k as [|k]; [lia|]. simpl in Hk.
    destruct j as [|j]; simpl in Hj.
    + injection Hj as <-. simpl.
      apply list_elem_of_lookup_2 in Hk.
      destruct (sregex_iterator_position_lower _ _ _ Hk) as [_ Hlt].
      by apply Hlt.
    + apply (IH j k); [lia|done..].
Qed.

Lemma filter_word_none l :
  existsb is_word l = false → List.filter is_word l = [].
Proof.
  induction l as [|c l IH]; simpl; [done|].
  destruct (is_word c); simpl; [done|]. apply IH.
Qed.

Lemma filter_word_all l :
  forallb is_word l = true → List.filter is_word l = l.
Proof.
  induction l as [|c l IH]; simpl; [done|].
  destruct (is_word c); simpl; [|done]. intros Hl. by rewrite IH.
Qed.

(** The matches, put end to end, are the word characters of the line. *)
Lemma sregex_iterator_exhaustive base l :
  concat (matched <$> sregex_iterator base l) = List.filter is_word l.
Proof.
  apply (sregex_iterator_ind (λ base l ms,
    concat (matched <$> ms) = List.filter is_word l)); clear.
  - intros base l Hs. apply regex_search_none in Hs.
    by rewrite filter_word_none.
  - intros base l off w rest Hs IH.
    apply regex_search_some in Hs as (skip & -> & <- & Hskip & Hne & Hw & Hr).
    rewrite fmap_cons. cbn [concat matched]. rewrite IH.
    rewrite !List.filter_app.
    by rewrite (filter_word_none skip), (filter_word_all w).
Qed.

(** ** The tokens of a line, one against the other *)

Lemma string_length_of_list l :
  String.length (string_of_list_ascii l) = length l.
Proof. induction l as [|c l IH]; simpl; [done|]. by rewrite IH. Qed.

Lemma emitted_real instrs i line t :
  t ∈ emitted instrs i line → is_real t →
  ∃ m, m ∈ sregex_iterator 0 line
       ∧ t = match_token instrs (line_number i) line m.
Proof.
  rewrite emitted_eq. intros [Hin|Hin]%elem_of_app Hreal.
  - apply list_elem_of_fmap in Hin as (m & -> & Hm). by exists m.
  - apply list_elem_of_singleton in Hin as ->. by destruct Hreal.
Qed.

Lemma emitted_lookup_real instrs i line k t :
  emitted instrs i line !! k = Some t → is_real t →
  ∃ m, sregex_iterator 0 line !! k = Some m
       ∧ t = match_token instrs (line_number i) line m.
Proof.
  rewrite emitted_eq. intros Hk Hreal.
  destruct (decide (k < length (sregex_iterator 0 line))%nat) as [Hlt|Hge].
  - rewrite lookup_app_l in Hk by by rewrite length_fmap.
    rewrite list_lookup_fmap in Hk.
    destruct (sregex_iterator 0 line !! k) as [m|]; [|done].
    injection Hk as <-. by exists m.
  - rewrite lookup_app_r in Hk by (rewrite length_fmap; lia).
    apply list_lookup_singleton_Some in Hk as [_ <-]. by destruct Hreal.
Qed.

Lemma match_token_fits instrs n line m :
  Z.of_nat (length line) ≤ INT_MAX → m ∈ sregex_iterator 0 line →
  Token.column (match_token instrs n line m) = Z.of_nat (position m) + 1
  ∧ chars (Token.lexeme (match_token instrs n line m)) = matched m
  ∧ String.length (Token.lexeme (match_token instrs n line m))
    = length (matched m).
Proof.
  intros Hlen Hm. destruct (match_in_range line m Hlen Hm) as [Hcol Htext].
  unfold match_token. cbn. rewrite Htext, Hcol. split_and!; [done| |].
  - unfold chars. apply list_ascii_of_string_of_list_ascii.
  - apply string_length_of_list.
Qed.

(** X1. On a line that fits an [int], the lexeme of every real token is
    found in the line at the token's column, is not empty, is made of word
    characters, and is a maximal run: the line has no word character just
    before it and none just after it. *)
Theorem X1_token_in_line instrs i line t :
  Z.of_nat (length line) ≤ INT_MAX →
  t ∈ emitted instrs i line → is_real t →
  ∃ before after,
    line = before ++ chars (Token.lexeme t) ++ after
    ∧ Token.column t = Z.of_nat (length before) + 1
    ∧ chars (Token.lexeme t) ≠ []
    ∧ forallb is_word (chars (Token.lexeme t)) = true
    ∧ last_word before = false ∧ stops after.
Proof.
  intros Hlen Hin Hreal.
  destruct (emitted_real _ _ _ _ Hin Hreal) as (m & Hm & ->).
  destruct (match_token_fits instrs (line_number i) line m Hlen Hm)
    as (-> & -> & _).
  destruct (sregex_iterator_maximal 0 line [] m eq_refl (or_intror eq_refl) Hm)
    as (before & after & Heq & <- & ?).
  by exists before, after.
Qed.

Lemma X1_token_in_line_witness :
  ∃ before after,
    chars "add x1, x2" = before ++ chars "x1" ++ after
    ∧ 5 = Z.of_nat (length before) + 1
    ∧ last_word before = false ∧ stops after.
Proof.
  destruct (X1_token_in_line {[ "add"%string ]} 0 (chars "add x1, x2")
              (Token.mk REGISTER "x1" 1 5))
    as (before & after & Heq & Hcol & _ & _ & Hb & Ha).
  - by vm_compute.
  - by apply (list_elem_of_lookup_2 _ 1).
  - done.
  - by exists before, after.
Defined.

(** X2. On a line that fits an [int], the real tokens of the line come in
    the order of their columns and do not overlap: a later token starts
    beyond the end of an earlier one, with at least one separator between
    them. *)
Theorem X2_tokens_apart instrs i line j k t t' :
  Z.of_nat (length line) ≤ INT_MAX →
  (j < k)%nat →
  emitted instrs i line !! j = Some t →
  emitted instrs i line !! k = Some t' → is_real t' →
  is_real t
  ∧ Token.column t + Z.of_nat (String.length (Token.lexeme t))
    < Token.column t'.
Proof.
  intros Hlen Hjk Hj Hk Hreal'.
  destruct (emitted_lookup_real _ _ _ _ _ Hk Hreal') as (m' & Hm' & ->).
  assert (is_real t) as Hreal.
  { rewrite emitted_eq in Hj.
    apply lookup_lt_Some in Hm'.
    rewrite lookup_app_l in Hj by (rewrite length_fmap; lia).
    apply list_elem_of_lookup_2 in Hj.
    pose proof (match_tokens_real instrs (line_number i) line
                  (sregex_iterator 0 line)) as Hall.
    rewrite Forall_forall in Hall. by apply Hall. }
  split; [done|].
  destruct (emitted_lookup_real _ _ _ _ _ Hj Hreal) as (m & Hm & ->).
  pose proof (sregex_iterator_separated 0 line j k m m' Hjk Hm Hm') as Hsep.
  apply list_elem_of_lookup_2 in Hm, Hm'.
  destruct (match_token_fits instrs (line_number i) line m Hlen Hm)
    as (-> & _ & ->).
  destruct (match_token_fits instrs (line_number i) line m' Hlen Hm')
    as (-> & _ & _).
  lia.
Qed.

Lemma X2_tokens_apart_witness :
  1 + Z.of_nat (String.length "add") < 5.
Proof.
  destruct (X2_tokens_apart {[ "add"%string ]} 0 (chars "add x1, x2") 0 1
              (Token.mk INSTRUCTION "add" 1 1) (Token.mk REGISTER "x1" 1 5))
    as [_ Hlt]; try done; by vm_compute.
Defined.

(** X3. On a line that fits an [int], the lexemes of the real tokens of the
    line, put end to end, are the word characters of the line in their
    order: the scan drops every separator and nothing else. *)
Theorem X3_tokens_cover_words instrs i line :
  Z.of_nat (length line) ≤ INT_MAX →
  ∃ real eol,
    emitted instrs i line = real ++ [eol]
    ∧ Token.type eol = END_OF_LINE
    ∧ Forall is_real real
    ∧ concat ((λ t, chars (Token.lexeme t)) <$> real)
      = List.filter is_word line.
Proof.
  intros Hlen. eexists _, _. rewrite emitted_eq.
  split_and!; [done|done|apply match_tokens_real|].
  rewrite <- sregex_iterator_exhaustive with (base := 0%nat).
  rewrite <- list_fmap_compose. f_equal.
  apply Forall_fmap_ext, Forall_forall. intros m Hm.
  change (chars (Token.lexeme (match_token instrs (line_number i) line m))
          = matched m).
  by destruct (match_token_fits instrs (line_number i) line m Hlen Hm)
    as (_ & ? & _).
Qed.

Lemma X3_tokens_cover_words_witness :
  ∃ real eol,
    emitted {[ "add"%string ]} 0 (chars "add x1, x2") = real ++ [eol]
    ∧ concat ((λ t, chars (Token.lexeme t)) <$> real) = chars "addx1x2".
Proof.
  destruct (X3_tokens_cover_words {[ "add"%string ]} 0 (chars "add x1, x2"))
    as (real & eol & Heq & _ & _ & Hwords); [by vm_compute|].
  by exists real, eol.
Defined.

(** ** The stream of a whole source *)

(** Additive measures of a stream assembled line by line. *)
Section Measure.
Context {A B : Type} (g : list B → nat) (h : A → nat).
Hypothesis g_nil : g [] = 0%nat.
Hypothesis g_app : ∀ a b, g (a ++ b) = (g a + g b)%nat.

Lemma measure_concat_imap (f : nat → A → list B) l :
  (∀ i x, g (f i x) = h x) →
  g (concat (imap f l)) = sum_list_with h l.
Proof.
  revert f; induction l as [|x l IH]; intros f Hf; [done|].
  rewrite imap_cons. cbn [concat sum_list_with].
  rewrite g_app, Hf, IH; [done|]. intros i y. apply Hf.
Qed.

End Measure.

Lemma filter_none {A} (P : A → Prop) `{!∀ x, Decision (P x)} (l : list A) :
  Forall (λ x, ¬ P x) l → filter P l = [].
Proof.
  induction 1 as [|x l Hx _ IH]; [done|]. by rewrite filter_cons_False.
Qed.

Lemma emitted_length instrs i line :
  length (emitted instrs i line) = S (length (run_starts line)).
Proof.
  rewrite emitted_eq, length_app, length_fmap.
  rewrite <- sregex_iterator_run_starts, length_fmap. simpl. lia.
Qed.

Lemma emitted_end_of_lines instrs i line :
  length (filter (λ t, Token.type t = END_OF_LINE) (emitted instrs i line))
  = 1%nat.
Proof.
  rewrite emitted_eq, filter_app, filter_none; [done|].
  apply match_tokens_real.
Qed.

Lemma sum_list_with_one {A} (l : list A) :
  sum_list_with (λ _, 1%nat) l = length l.
Proof. induction l as [|x l IH]; simpl; [done|]. by rewrite IH. Qed.

(** X4. The constructor appends one token per maximal run of word
    characters plus one per line, and exactly as many EndOfLine tokens as
    the source has lines; it ends with the column counter at 1 and, while
    the number of lines fits an [int], with the line counter one past the
    number of lines. *)
Theorem X4_stream_size (source : ifstream) (instrs : gset string)
    (parsedFileRef : list Token) :
  is_open source = true →
  ∃ this appended,
    Lexer_new source instrs parsedFileRef
    = (inr this, parsedFileRef ++ appended)
    ∧ length appended
      = sum_list_with (λ line, S (length (run_starts line)))
          (getlines (content source))
    ∧ length (filter (λ t, Token.type t = END_OF_LINE) appended)
      = length (getlines (content source))
    ∧ currentColumn this = 1
    ∧ (Z.of_nat (length (getlines (content source))) < INT_MAX →
       currentLine this = Z.of_nat (length (getlines (content source))) + 1).
Proof.
  intros Hopen. eexists _, _. rewrite Lexer_new_stream by done.
  split_and!; [done| | |done|].
  - apply (measure_concat_imap length); [done|apply length_app|].
    apply emitted_length.
  - rewrite <- (sum_list_with_one (getlines (content source))).
    apply (measure_concat_imap
             (λ l, length (filter (λ t, Token.type t = END_OF_LINE) l)));
      [done| |].
    + intros a b. by rewrite filter_app, length_app.
    + intros i line. apply emitted_end_of_lines.
  - apply line_number_small.
Qed.

Lemma X4_stream_size_witness :
  ∃ this appended,
    Lexer_new example_source {[ "add"%string ]} [] = (inr this, appended)
    ∧ length appended = 7%nat
    ∧ length (filter (λ t, Token.type t = END_OF_LINE) appended) = 3%nat
    ∧ currentLine this = 4.
Proof.
  destruct (X4_stream_size example_source {[ "add"%string ]} [] eq_refl)
    as (this & appended & Heq & Hlen & Heol & _ & Hline).
  exists this, appended. split_and!; [done|done|done|].
  by apply Hline.
Defined.

Lemma hasMoreTokens_eq this parsedFile :
  hasMoreTokens this parsedFile
  = (inr (bool_decide (parsedFile ≠ [])), parsedFile).
Proof. by destruct parsedFile. Qed.

(** X5. An open source without any character adds nothing to the deque and
    leaves the counters at 1. A source with at least one character makes the
    stream end with an EndOfLine token, whether or not its last line is
    closed by a newline, and [hasMoreTokens] answers true afterwards. *)
Theorem X5_stream_end (source : ifstream) (instrs : gset string)
    (parsedFileRef : list Token) :
  is_open source = true →
  (content source = [] →
   Lexer_new source instrs parsedFileRef
   = (inr (mkLexer 1 1 instrs), parsedFileRef))
  ∧ (content source ≠ [] →
     ∃ this stream eol,
       Lexer_new source instrs parsedFileRef = (inr this, stream)
       ∧ last stream = Some eol
       ∧ Token.type eol = END_OF_LINE
       ∧ hasMoreTokens this stream = (inr true, stream)).
Proof.
  intros Hopen. rewrite Lexer_new_stream by done. split.
  - intros ->. simpl. by rewrite app_nil_r.
  - intros Hne.
    destruct (getlines (content source)) as [|line lines _] eqn:Hl
      using rev_ind; [by apply getlines_nil in Hl|].
    eexists _, _, _. split; [done|].
    rewrite imap_app, concat_app. cbn [imap concat].
    rewrite app_nil_r, emitted_eq, !app_assoc.
    split_and!; [apply last_snoc|done|].
    rewrite hasMoreTokens_eq. do 2 f_equal.
    apply bool_decide_eq_true_2. intros Hnil.
    by apply app_eq_nil in Hnil as [_ ?].
Qed.

Lemma X5_stream_end_witness :
  ∃ this stream eol,
    Lexer_new (mk_ifstream true (chars "loop:")) {[ "add"%string ]} []
    = (inr this, stream)
    ∧ last stream = Some eol ∧ Token.type eol = END_OF_LINE.
Proof.
  destruct (X5_stream_end (mk_ifstream true (chars "loop:"))
              {[ "add"%string ]} [] eq_refl) as [_ Hend].
  destruct Hend as (this & stream & eol & Heq & Hlast & Htype & _); [done|].
  by exists this, stream, eol.
Defined.

Lemma tokenize_frame instrs instrs' str line column :
  (string_of_list_ascii str ∈ instrs ↔ string_of_list_ascii str ∈ instrs') →
  tokenize instrs str line column = tokenize instrs' str line column.
Proof.
  intros Hiff. unfold tokenize.
  by rewrite (bool_decide_ext _ _ Hiff).
Qed.

(** X6. Only the mnemonics that occur in the source matter: two instruction
    sets that agree on every piece of text the constructor hands to the
    classifier give the same token stream. *)
Theorem X6_instruction_frame (source : ifstream) (instrs instrs' : gset string)
    (parsedFileRef : list Token) :
  is_open source = true →
  (∀ line m,
     line ∈ getlines (content source) → m ∈ sregex_iterator 0 line →
     string_of_list_ascii (match_text line m) ∈ instrs
     ↔ string_of_list_ascii (match_text line m) ∈ instrs') →
  (Lexer_new source instrs parsedFileRef).2
  = (Lexer_new source instrs' parsedFileRef).2.
Proof.
  intros Hopen Hagree. rewrite !Lexer_new_stream by done. cbn [snd].
  do 2 f_equal. apply imap_ext. intros i line Hline.
  apply list_elem_of_lookup_2 in Hline.
  rewrite !emitted_eq. f_equal.
  apply Forall_fmap_ext, Forall_forall. intros m Hm.
  apply tokenize_frame. by apply Hagree.
Qed.

Lemma X6_instruction_frame_witness :
  (Lexer_new (mk_ifstream true (chars "add x1")) {[ "add"%string ]} []).2
  = (Lexer_new (mk_ifstream true (chars "add x1"))
       {[ "add"%string; "sub"%string ]} []).2.
Proof.
  apply X6_instruction_frame; [done|].
  intros line m Hline Hm.
  apply list_elem_of_singleton in Hline as ->.
  assert (m ∈ [mk_smatch 0 (chars "add"); mk_smatch 4 (chars "x1")])
    as Hm' by exact Hm.
  clear Hm. apply elem_of_cons in Hm' as [->|Hm];
    [|apply list_elem_of_singleton in Hm as ->].
  - change ("add"%string ∈ ({[ "add"%string ]} : gset string)
            ↔ "add"%string ∈ ({[ "add"%string; "sub"%string ]} : gset string)).
    set_solver.
  - change ("x1"%string ∈ ({[ "add"%string ]} : gset string)
            ↔ "x1"%string ∈ ({[ "add"%string; "sub"%string ]} : gset string)).
    set_solver.
Defined.
